(** * BiliDownloadsExtractor: the directory scanner and its entity model

    A shallow embedding of [BiliDownloadsExtractor.py]: the classes [Media]
    and [Coll] and the function [scan].

    The program talks to its host through four library calls:
    [os.path.join], [os.listdir], [open(...).read()] and [json.loads].
    They are gathered in the record [world]; every definition takes the
    world as its first argument and every theorem about the constructors
    and [scan] holds for all worlds.  The file system is read-only for the
    program and is taken not to change while one call runs, so a world
    answers the same question the same way.  [Posix] is one world in full:
    a directory tree, with POSIX path joining.

    Constructors and accessors are functions into [res], a value or a
    raised exception.  They compute what an object holds.  [Coll.content]
    returns a [copy.deepcopy] of a list object; what that gives the caller
    depends on which object is which, so [Store] has objects with
    references, and [content], [__iter__] and [deepcopy] on them.

    The exceptions are Python's.  Where the specification names an error,
    it is: [DescriptorNotFound], the [FileNotFoundError] of [open];
    [DescriptorMalformed], the [JSONDecodeError] of [loads];
    [ScanRootNotFound], the [FileNotFoundError] or [NotADirectoryError] of
    [os.listdir] on the root; [EmptyCollection], the [IndexError] of
    [self._l[0]]. *)

From Stdlib Require Import QArith Ascii String.
From stdpp Require Import base option list strings gmap.

Set Warnings "-register-all,-clear-no-such-hyp".

Open Scope Z_scope.
Open Scope nat_scope.

(** ** Exceptions and results *)

(** The Python exceptions the embedded code can raise, with the attribute
    that tells two of the same class apart ([filename] of an [OSError],
    the key of a [KeyError]). *)
Inductive exn : Type :=
| FileNotFoundError (filename : string)
| NotADirectoryError (filename : string)
| IsADirectoryError (filename : string)
| PermissionError (filename : string)
| UnicodeDecodeError
| JSONDecodeError
| KeyError (key : string)
| TypeError
| IndexError.

Inductive res (A : Type) : Type :=
| Ok (a : A)
| Raise (e : exn).
Arguments Ok {A} a.
Arguments Raise {A} e.

Global Instance res_ret : MRet res := fun A a => Ok a.
Global Instance res_bind : MBind res := fun A B f r =>
  match r with
  | Ok a => f a
  | Raise e => Raise e
  end.

(** ** Values produced by [json.loads] *)

(** A parsed document.  Numbers are exact: every finite float is a
    rational.  The [NaN] and [Infinity] literals, which [json.loads] accepts
    although they are outside the JSON grammar, are not represented. *)
Inductive json : Type :=
| JNull
| JBool (b : bool)
| JInt (z : Z)
| JFloat (q : Q)
| JStr (s : string)
| JArr (items : list json)
| JObj (members : list (string * json)).

(** First binding of a key, as a [dict] built by [loads] has one per key. *)
Fixpoint assoc {A : Type} (k : string) (ms : list (string * A)) : option A :=
  match ms with
  | [] => None
  | (k', v) :: rest => if String.eqb k k' then Some v else assoc k rest
  end.

(** [v[k]] for a string key [k]: only a [dict] can be indexed by a string. *)
Definition subscript (v : json) (k : string) : res json :=
  match v with
  | JObj ms =>
      match assoc k ms with
      | Some x => Ok x
      | None => Raise (KeyError k)
      end
  | _ => Raise TypeError
  end.

(** [xs[i]] on a list. *)
Definition index {A : Type} (xs : list A) (i : nat) : res A :=
  match xs !! i with
  | Some x => Ok x
  | None => Raise IndexError
  end.

(** The numeric value of an [int], [float] or [bool] ([True == 1]). *)
Definition num_of (v : json) : option Q :=
  match v with
  | JBool b => Some (inject_Z (if b then 1 else 0))
  | JInt z => Some (inject_Z z)
  | JFloat q => Some q
  | _ => None
  end.

(** Python's [==] on parsed values: numbers by value, strings and lists
    element by element, dicts key by key whatever the order. *)
Fixpoint py_eq (x y : json) {struct x} : bool :=
  match x, y with
  | JNull, JNull => true
  | JStr a, JStr b => String.eqb a b
  | JArr xs, JArr ys =>
      (fix go (xs ys : list json) {struct xs} : bool :=
         match xs, ys with
         | [], [] => true
         | a :: xs', b :: ys' => py_eq a b && go xs' ys'
         | _, _ => false
         end) xs ys
  | JObj ms, JObj ms' =>
      Nat.eqb (length ms) (length ms') &&
      (fix go (ms : list (string * json)) {struct ms} : bool :=
         match ms with
         | [] => true
         | (k, v) :: rest =>
             match assoc k ms' with
             | Some v' => py_eq v v'
             | None => false
             end && go rest
         end) ms
  | _, _ =>
      match num_of x, num_of y with
      | Some a, Some b => Qeq_bool a b
      | _, _ => false
      end
  end.

(** ** The host *)

Record world : Type := {
  (** [os.path.join(a, b)] *)
  path_join : string -> string -> string;
  (** [os.listdir(p)]: the names in directory [p], in the host's order *)
  listdir : string -> res (list string);
  (** [open(p, 'r', encoding='utf-8')] followed by [read()] *)
  read_text : string -> res string;
  (** [json.loads(s)] *)
  loads : string -> res json
}.

(** ** class Media *)

Module Media.

Record t : Type := {
  _path : string;
  _video : string;
  _audio : string;
  _entry : json
}.

(** [Media.__init__] *)
Definition init (W : world) (path : string) : res t :=
  let video := path_join W path "16\video.m4s" in
  let audio := path_join W path "16\audio.m4s" in
  text ← read_text W (path_join W path "entry.json");
  entry ← loads W text;
  Ok {| _path := path; _video := video; _audio := audio; _entry := entry |}.

Definition title (self : t) : res json :=
  page_data ← subscript (_entry self) "page_data";
  subscript page_data "part".

Definition video (self : t) : string := _video self.

Definition audio (self : t) : string := _audio self.

Definition coll_name (self : t) : res json :=
  subscript (_entry self) "title".

Definition cover_url (self : t) : res json :=
  subscript (_entry self) "cover".

Definition is_in_any_coll (self : t) : res bool :=
  a ← title self;
  b ← coll_name self;
  Ok (negb (py_eq a b)).

Definition show (self : t) : res json := title self.

End Media.

(** ** class Coll *)

Module Coll.

Record t : Type := {
  _path : string;
  _l : list Media.t;
  _name : json
}.

(** The loop of [Coll.__init__]: one [Media] per listed name, appended
    to [l] in the order of the listing. *)
Fixpoint init_loop (W : world) (path : string) (names : list string)
    (l : list Media.t) : res (list Media.t) :=
  match names with
  | [] => Ok l
  | m :: rest =>
      let m_path := path_join W path m in
      x ← Media.init W m_path;
      init_loop W path rest (l ++ [x])
  end.

(** [Coll.__init__] *)
Definition init (W : world) (path : string) : res t :=
  names ← listdir W path;
  l ← init_loop W path names [];
  first ← index l 0;
  name ← Media.coll_name first;
  Ok {| _path := path; _l := l; _name := name |}.

Definition append (self : t) (media : Media.t) : t :=
  {| _path := _path self; _l := _l self ++ [media]; _name := _name self |}.

Definition name (self : t) : json := _name self.

(** [Coll.__len__] *)
Definition len (self : t) : nat := length (_l self).

(** The loop of [Coll.video_titles]. *)
Fixpoint video_titles_loop (ms : list Media.t) (r : list json)
    : res (list json) :=
  match ms with
  | [] => Ok r
  | m :: rest =>
      x ← Media.title m;
      video_titles_loop rest (r ++ [x])
  end.

Definition video_titles (self : t) : res (list json) :=
  video_titles_loop (_l self) [].

End Coll.

(** ** scan *)

(** An element of the list that [scan] returns: [Media | Coll]. *)
Inductive media_or_coll : Type :=
| IsMedia (m : Media.t)
| IsColl (c : Coll.t).

(** The loop of [scan] over the names found in [path]. *)
Fixpoint scan_loop (W : world) (path : string) (ds : list string)
    (result : list media_or_coll) : res (list media_or_coll) :=
  match ds with
  | [] => Ok result
  | d :: rest =>
      let d_path := path_join W path d in
      c ← listdir W d_path;
      if Nat.eqb (length c) 1 then
        c0 ← index c 0;
        m ← Media.init W (path_join W d_path c0);
        scan_loop W path rest (result ++ [IsMedia m])
      else
        co ← Coll.init W d_path;
        scan_loop W path rest (result ++ [IsColl co])
  end.

Definition scan (W : world) (path : string) : res (list media_or_coll) :=
  ds ← listdir W path;
  scan_loop W path ds [].

(** ** The exporters *)

(** [extract_video], [extract_audio] and [extract_and_merge] build a
    stream graph with [ffmpeg.input] and [ffmpeg.output] and end with
    [ffmpeg.run(out, overwrite_output=True, quiet=True)].  The embedding
    returns that last call, with its arguments; what the transcoder does
    with it is outside the program. *)

(** [ffmpeg.input(filename)] *)
Inductive ffmpeg_stream : Type :=
| ffmpeg_input (filename : string).

(** [ffmpeg.output] of some streams, a file name and keyword arguments *)
Record ffmpeg_output : Type := {
  streams : list ffmpeg_stream;
  filename : string;
  kwargs : list (string * string)
}.

(** [ffmpeg.run(stream_spec, overwrite_output=..., quiet=...)] *)
Record ffmpeg_run : Type := {
  stream_spec : ffmpeg_output;
  overwrite_output : bool;
  quiet : bool
}.

(** [x + s] for a string [s]: only a [str] can be added to a [str]. *)
Definition add_str (x : json) (s : string) : res string :=
  match x with
  | JStr a => Ok (a +:+ s)
  | _ => Raise TypeError
  end.

Definition default_get_name_func (media : Media.t) : res json :=
  Media.title media.

Definition extract_video (W : world) (media : Media.t) (des_dir : string)
    (fmt : string) (copy : bool) (get_name_func : Media.t → res json)
    : res ffmpeg_run :=
  x ← get_name_func media;
  x_dot ← add_str x ".";
  let name := x_dot +:+ fmt in
  let des := path_join W des_dir name in
  let video_stream := ffmpeg_input (Media.video media) in
  let out :=
    if copy then
      {| streams := [video_stream]; filename := des;
         kwargs := [("c", "copy")] |}
    else
      {| streams := [video_stream]; filename := des; kwargs := [] |} in
  Ok {| stream_spec := out; overwrite_output := true; quiet := true |}.

Definition extract_audio (W : world) (media : Media.t) (des_dir : string)
    (fmt : string) (copy : bool) (get_name_func : Media.t → res json)
    : res ffmpeg_run :=
  x ← get_name_func media;
  x_dot ← add_str x ".";
  let name := x_dot +:+ fmt in
  let des := path_join W des_dir name in
  let audio_stream := ffmpeg_input (Media.audio media) in
  let out :=
    if copy then
      {| streams := [audio_stream]; filename := des;
         kwargs := [("c", "copy")] |}
    else
      {| streams := [audio_stream]; filename := des; kwargs := [] |} in
  Ok {| stream_spec := out; overwrite_output := true; quiet := true |}.

Definition extract_and_merge (W : world) (media : Media.t) (des_dir : string)
    (fmt : string) (copy : bool) (get_name_func : Media.t → res json)
    : res ffmpeg_run :=
  x ← get_name_func media;
  x_dot ← add_str x ".";
  let name := x_dot +:+ fmt in
  let des := path_join W des_dir name in
  let audio_stream := ffmpeg_input (Media.audio media) in
  let video_stream := ffmpeg_input (Media.video media) in
  let out :=
    if copy then
      {| streams := [audio_stream; video_stream]; filename := des;
         kwargs := [("c", "copy")] |}
    else
      {| streams := [audio_stream; video_stream]; filename := des;
         kwargs := [] |} in
  Ok {| stream_spec := out; overwrite_output := true; quiet := true |}.

(** The calls with every optional argument left out:
    [fmt='mp4'] ([fmt='mp3'] for the audio), [copy=False],
    [get_name_func=default_get_name_func]. *)
Definition extract_video_default (W : world) (media : Media.t)
    (des_dir : string) : res ffmpeg_run :=
  extract_video W media des_dir "mp4" false default_get_name_func.

Definition extract_audio_default (W : world) (media : Media.t)
    (des_dir : string) : res ffmpeg_run :=
  extract_audio W media des_dir "mp3" false default_get_name_func.

Definition extract_and_merge_default (W : world) (media : Media.t)
    (des_dir : string) : res ffmpeg_run :=
  extract_and_merge W media des_dir "mp4" false default_get_name_func.

(** ** A concrete host: a directory tree with POSIX path joining *)

Module Posix.

(** [posixpath.join(a, b)] *)
Definition ends_with_sep (a : string) : bool :=
  match String.get (String.length a - 1) a with
  | Some c => Ascii.eqb c "/"%char
  | None => false
  end.

Definition join (a b : string) : string :=
  if String.prefix "/" b then b
  else if (String.eqb a "" || ends_with_sep a)%bool then a +:+ b
  else a +:+ "/" +:+ b.

Inductive node : Type :=
| File (text : string)
| Dir (entries : list (string * node)).

(** Every path below [p], where the tree [n] is mounted, with its node. *)
Fixpoint walk (p : string) (n : node) : list (string * node) :=
  (p, n) ::
  match n with
  | File _ => []
  | Dir entries =>
      (fix go (es : list (string * node)) : list (string * node) :=
         match es with
         | [] => []
         | (name, child) :: rest => walk (join p name) child ++ go rest
         end) entries
  end.

Section Host.
(** The tree is mounted at [mount]; [docs] lists the texts in the tree
    that are JSON documents, each with the value it denotes. *)
Variable mount : string.
Variable tree : node.
Variable docs : list (string * json).

(** A path names a node when it is spelled the way [walk] spells it, that
    is, the way the program joins it. *)
Definition os_listdir (p : string) : res (list string) :=
  match assoc p (walk mount tree) with
  | Some (Dir entries) => Ok (map fst entries)
  | Some (File _) => Raise (NotADirectoryError p)
  | None => Raise (FileNotFoundError p)
  end.

Definition open_read (p : string) : res string :=
  match assoc p (walk mount tree) with
  | Some (File text) => Ok text
  | Some (Dir _) => Raise (IsADirectoryError p)
  | None => Raise (FileNotFoundError p)
  end.

(** [json.loads] on the texts of the tree. *)
Definition json_loads (s : string) : res json :=
  match assoc s docs with
  | Some v => Ok v
  | None => Raise JSONDecodeError
  end.

Definition host : world :=
  {| path_join := join;
     listdir := os_listdir;
     read_text := open_read;
     loads := json_loads |}.
End Host.

(** The text and the value of a descriptor with the three keys read by
    [Media]. *)
Definition q (s : string) : string :=
  String "034"%char (s +:+ String "034"%char EmptyString).

Definition entry_text (part coll cover : string) : string :=
  "{" +:+ q "title" +:+ ": " +:+ q coll +:+ ", " +:+
  q "cover" +:+ ": " +:+ q cover +:+ ", " +:+
  q "page_data" +:+ ": {" +:+ q "part" +:+ ": " +:+ q part +:+ "}}".

Definition entry_value (part coll cover : string) : json :=
  JObj [("title", JStr coll); ("cover", JStr cover);
        ("page_data", JObj [("part", JStr part)])].

Definition item (part coll : string) : node :=
  Dir [("16", Dir [("video.m4s", File "v"); ("audio.m4s", File "a")]);
       ("entry.json", File (entry_text part coll "http://i0.hdslb.com/c.jpg"))].

Definition doc (part coll : string) : string * json :=
  (entry_text part coll "http://i0.hdslb.com/c.jpg",
   entry_value part coll "http://i0.hdslb.com/c.jpg").

Definition all_docs : list (string * json) :=
  [doc "EP1" "EP1"; doc "EP1" "Show"; doc "EP2" "Show"; ("{}", JObj [])].

(** A download folder with a lone video and a two-part collection. *)
Definition library : node :=
  Dir [("G1", Dir [("a1", item "EP1" "EP1")]);
       ("G2", Dir [("b1", item "EP1" "Show"); ("b2", item "EP2" "Show")])].

Definition library_host : world := host "/R" library all_docs.

(** An item folder that holds the media files and no descriptor. *)
Definition media_only : node :=
  Dir [("16", Dir [("video.m4s", File "v"); ("audio.m4s", File "a")])].

(** A folder whose first group holds a descriptor that is not JSON and
    whose second group holds an item without a descriptor. *)
Definition damaged : node :=
  Dir [("G1", Dir [("a1", Dir [("entry.json", File "<html>")])]);
       ("G2", Dir [("b1", media_only)])].

Definition damaged_host : world := host "/R" damaged all_docs.



(** A folder with a group that holds nothing. *)
Definition hollow : node := Dir [("G1", Dir [])].

Definition hollow_host : world := host "/R" hollow all_docs.

(** The lone video of [library] after its media files were deleted. *)
Definition stripped : node :=
  Dir [("G1", Dir [("a1", Dir [("entry.json",
          File (entry_text "EP1" "EP1" "http://i0.hdslb.com/c.jpg"))])])].

Definition stripped_host : world := host "/R" stripped all_docs.

(** A folder whose only item has the descriptor [{}]. *)
Definition keyless : node :=
  Dir [("G1", Dir [("a1", Dir [("entry.json", File "{}")])])].

Definition keyless_host : world := host "/R" keyless all_docs.

(** The collection that [Coll.__init__] builds from [G2] of [library]. *)
Definition show_coll : Coll.t :=
  {| Coll._path := "/R/G2";
     Coll._l :=
       [{| Media._path := "/R/G2/b1";
           Media._video := "/R/G2/b1/16\video.m4s";
           Media._audio := "/R/G2/b1/16\audio.m4s";
           Media._entry :=
             entry_value "EP1" "Show" "http://i0.hdslb.com/c.jpg" |};
        {| Media._path := "/R/G2/b2";
           Media._video := "/R/G2/b2/16\video.m4s";
           Media._audio := "/R/G2/b2/16\audio.m4s";
           Media._entry :=
             entry_value "EP2" "Show" "http://i0.hdslb.com/c.jpg" |}];
     Coll._name := JStr "Show" |}.

End Posix.

(** ** More folders on the concrete host *)

Module Cases.
Import Posix.

Definition docs : list (string * json) := doc "EP3" "Show" :: all_docs.

(** A collection whose second item lost its descriptor, with a third item
    after it, well formed in [broken] and not JSON in [broken_twice]. *)
Definition broken : node :=
  Dir [("G2", Dir [("b1", item "EP1" "Show"); ("b2", media_only);
                   ("b3", item "EP3" "Show")])].

Definition broken_twice : node :=
  Dir [("G2", Dir [("b1", item "EP1" "Show"); ("b2", media_only);
                   ("b3", Dir [("entry.json", File "<html>")])])].

Definition broken_host : world := host "/R" broken docs.

Definition broken_twice_host : world := host "/R" broken_twice docs.

(** A download folder with a plain file next to its only group. *)
Definition littered : node :=
  Dir [("G1", Dir [("a1", item "EP1" "EP1")]);
       ("readme.txt", File "hello")].

Definition littered_host : world := host "/R" littered docs.

(** A download folder whose second group was emptied. *)
Definition emptied : node :=
  Dir [("G1", Dir [("a1", item "EP1" "EP1")]); ("G2", Dir [])].

Definition emptied_host : world := host "/R" emptied docs.

(** The lone video of [G1], as [Media.__init__] builds it. *)
Definition lone : Media.t :=
  {| Media._path := "/R/G1/a1";
     Media._video := "/R/G1/a1/16\video.m4s";
     Media._audio := "/R/G1/a1/16\audio.m4s";
     Media._entry := entry_value "EP1" "EP1" "http://i0.hdslb.com/c.jpg" |}.

End Cases.

(** ** Objects with identity *)

(** [Coll.content] returns [deepcopy(self._l)].  Whether the caller can
    reach the collection's own objects through what it gets back is a
    question about references, so here objects live in a store.  A
    reference is an index into the store; allocation appends. *)

Module Store.

Abbreviation loc := nat (only parsing).

(** What a variable, a list slot or an attribute holds: an immutable
    atom, or a reference to a mutable object. *)
Inductive value : Type :=
| VNone
| VBool (b : bool)
| VInt (z : Z)
| VFloat (q : Q)
| VStr (s : string)
| VRef (l : loc).

Inductive class : Type := ClsMedia | ClsColl.

(** A [list], a [dict] with string keys, or an instance with its
    [__dict__]. *)
Inductive object : Type :=
| OList (items : list value)
| ODict (items : list (string * value))
| OInst (cls : class) (attrs : list (string * value)).

Abbreviation heap := (list object) (only parsing).

Definition alloc (o : object) (h : heap) : loc * heap :=
  (length h, h ++ [o]).

(** The values an object holds, in order, and the same object holding
    other values under the same keys. *)
Definition children (o : object) : list value :=
  match o with
  | OList items => items
  | ODict items => items.*2
  | OInst _ attrs => attrs.*2
  end.

Definition with_children (o : object) (cs : list value) : object :=
  match o with
  | OList _ => OList cs
  | ODict items => ODict (zip items.*1 cs)
  | OInst cls attrs => OInst cls (zip attrs.*1 cs)
  end.

(** *** The objects that the constructors build *)

(** The object graph of a parsed document: a fresh [list] or [dict] for
    every array or object in it. *)
Fixpoint store_json (j : json) (h : heap) : value * heap :=
  match j with
  | JNull => (VNone, h)
  | JBool b => (VBool b, h)
  | JInt z => (VInt z, h)
  | JFloat q => (VFloat q, h)
  | JStr s => (VStr s, h)
  | JArr items =>
      let '(vs, h') :=
        (fix go (js : list json) (h : heap) : list value * heap :=
           match js with
           | [] => ([], h)
           | j :: rest =>
               let '(v, h1) := store_json j h in
               let '(vs, h2) := go rest h1 in
               (v :: vs, h2)
           end) items h in
      let '(l, h'') := alloc (OList vs) h' in
      (VRef l, h'')
  | JObj members =>
      let '(kvs, h') :=
        (fix go (ms : list (string * json)) (h : heap)
             : list (string * value) * heap :=
           match ms with
           | [] => ([], h)
           | (k, j) :: rest =>
               let '(v, h1) := store_json j h in
               let '(kvs, h2) := go rest h1 in
               ((k, v) :: kvs, h2)
           end) members h in
      let '(l, h'') := alloc (ODict kvs) h' in
      (VRef l, h'')
  end.

(** The instance that [Media.__init__] leaves behind. *)
Definition store_media (m : Media.t) (h : heap) : loc * heap :=
  let '(entry, h') := store_json (Media._entry m) h in
  alloc (OInst ClsMedia [("_path", VStr (Media._path m));
                         ("_video", VStr (Media._video m));
                         ("_audio", VStr (Media._audio m));
                         ("_entry", entry)]) h'.

Fixpoint store_medias (ms : list Media.t) (h : heap) : list value * heap :=
  match ms with
  | [] => ([], h)
  | m :: rest =>
      let '(l, h1) := store_media m h in
      let '(vs, h2) := store_medias rest h1 in
      (VRef l :: vs, h2)
  end.

(** The instance that [Coll.__init__] leaves behind, with its list. *)
Definition store_coll (c : Coll.t) (h : heap) : loc * heap :=
  let '(vs, h1) := store_medias (Coll._l c) h in
  let '(l, h2) := alloc (OList vs) h1 in
  let '(name, h3) := store_json (Coll._name c) h2 in
  alloc (OInst ClsColl [("_path", VStr (Coll._path c));
                        ("_l", VRef l);
                        ("_name", name)]) h3.

(** *** copy.deepcopy *)

(** [copy.deepcopy(x, memo)]: an atom is returned as it is; an object
    already in [memo] yields its copy; any other object gets a new, empty
    object of its kind, which is entered in [memo] before the values it
    holds are copied in order.  The copy is written here once its values
    are copied; [copy] fills it one value at a time, which nothing reads
    in between.  [fuel] bounds the depth of the recursion. *)
Fixpoint copy_all
    (f : gmap loc loc → heap → value → option (value * gmap loc loc * heap))
    (memo : gmap loc loc) (h : heap) (xs : list value)
    : option (list value * gmap loc loc * heap) :=
  match xs with
  | [] => Some ([], memo, h)
  | x :: rest =>
      '(y, memo1, h1) ← f memo h x;
      '(ys, memo2, h2) ← copy_all f memo1 h1 rest;
      Some (y :: ys, memo2, h2)
  end.

Fixpoint deepcopy (fuel : nat) (memo : gmap loc loc) (h : heap) (x : value)
    : option (value * gmap loc loc * heap) :=
  match x with
  | VRef l =>
      match memo !! l with
      | Some y => Some (VRef y, memo, h)
      | None =>
          match fuel with
          | 0 => None
          | S fuel' =>
              o ← h !! l;
              let y := length h in
              '(cs, memo', h') ←
                copy_all (deepcopy fuel') (<[l := y]> memo)
                  (h ++ [with_children o []]) (children o);
              Some (VRef y, memo', <[y := with_children o cs]> h')
          end
      end
  | _ => Some (x, memo, h)
  end.

(** *** class Coll on the store *)

(** [self.name] for an attribute that is set. *)
Definition attr (h : heap) (self : loc) (name : string) : option value :=
  match h !! self with
  | Some (OInst _ attrs) => assoc name attrs
  | _ => None
  end.

(** The items of the list object that [v] refers to. *)
Definition list_items (h : heap) (v : value) : option (list value) :=
  match v with
  | VRef l =>
      match h !! l with
      | Some (OList items) => Some items
      | _ => None
      end
  | _ => None
  end.

(** [Coll.content]: the snapshot and the store after the call. *)
Definition content (fuel : nat) (h : heap) (self : loc)
    : option (value * heap) :=
  l ← attr h self "_l";
  '(y, _, h') ← deepcopy fuel ∅ h l;
  Some (y, h').

(** [Coll.__iter__], run to the end: the items of [self._l], in order. *)
Definition iter (h : heap) (self : loc) : option (list value) :=
  l ← attr h self "_l";
  list_items h l.

(** [Coll.append] *)
Definition append (h : heap) (self : loc) (media : loc) : option heap :=
  l ← attr h self "_l";
  items ← list_items h l;
  match l with
  | VRef r => Some (<[r := OList (items ++ [VRef media])]> h)
  | _ => None
  end.

(** [Coll.__len__] *)
Definition len (h : heap) (self : loc) : option nat :=
  l ← attr h self "_l";
  items ← list_items h l;
  Some (length items).

(** *** Reachability and copies *)

Definition below (n : nat) (v : value) : Prop :=
  match v with
  | VRef l => l < n
  | _ => True
  end.

(** No object of the store refers outside the store. *)
Definition closed (h : heap) : Prop :=
  Forall (λ o, Forall (below (length h)) (children o)) h.

(** The object at [l] can be reached from the value [v]. *)
Inductive reach (h : heap) : value → loc → Prop :=
| reach_here (l : loc) : reach h (VRef l) l
| reach_step (l : loc) (o : object) (c : value) (l' : loc) :
    h !! l = Some o → c ∈ children o → reach h c l' →
    reach h (VRef l) l'.

Definition rename (memo : gmap loc loc) (v : value) : value :=
  match v with
  | VRef l =>
      match memo !! l with
      | Some l' => VRef l'
      | None => v
      end
  | _ => v
  end.

Definition known (memo : gmap loc loc) (v : value) : Prop :=
  match v with
  | VRef l => is_Some (memo !! l)
  | _ => True
  end.

(** The object at [l'] in [h'] is the object at [l] in [h] with every
    reference replaced by the reference to its copy. *)
Definition copied (memo : gmap loc loc) (h h' : heap) (l l' : loc) : Prop :=
  ∃ o, h !! l = Some o ∧
       h' !! l' = Some (with_children o (rename memo <$> children o)) ∧
       Forall (known memo) (children o).

(** [memo] maps a part of [h] onto copies in [h']. *)
Definition is_copy (memo : gmap loc loc) (h h' : heap) : Prop :=
  ∀ l l', memo !! l = Some l' → copied memo h h' l l'.

(** How many of the first [n] objects have no copy yet. *)
Definition unvisited (n : nat) (memo : gmap loc loc) : nat :=
  size (set_seq 0 n ∖ dom memo : gset nat).

(** [memo] sends objects below [b] to objects of [g] from [n] on. *)
Definition memo_ok (b n : nat) (memo : gmap loc loc) (g : heap) : Prop :=
  ∀ k k', memo !! k = Some k' → k < b ∧ n ≤ k' ∧ k' < length g.

(** A copy of a part of [h] is under way in [g]: [g] still holds [h] as it
    was, and the copies made so far lie from [n] on. *)
Definition copy_pre (h : heap) (n : nat) (memo : gmap loc loc) (g : heap)
    : Prop :=
  (∀ k, k < length h → g !! k = h !! k) ∧
  memo_ok (length h) n memo g ∧
  n ≤ length g.

(** What a step of the copy does to [memo] and [g]: it only adds objects
    and entries, and every object it enters is copied when it returns. *)
Definition copy_post (h : heap) (n : nat) (memo : gmap loc loc) (g : heap)
    (memo' : gmap loc loc) (g' : heap) : Prop :=
  length g ≤ length g' ∧
  (∀ k, k < length g → g' !! k = g !! k) ∧
  memo ⊆ memo' ∧
  memo_ok (length h) n memo' g' ∧
  (∀ k k', memo' !! k = Some k' → memo !! k = None →
           length g ≤ k' ∧ copied memo' h g' k k').

(** [f] copies one value, given fuel for the objects without a copy. *)
Definition step_ok (h : heap) (n fuel : nat)
    (f : gmap loc loc → heap → value → option (value * gmap loc loc * heap))
    : Prop :=
  ∀ memo g x,
    copy_pre h n memo g → below (length h) x →
    unvisited (length h) memo < fuel →
    ∃ x' memo' g',
      f memo g x = Some (x', memo', g') ∧
      copy_post h n memo g memo' g' ∧
      x' = rename memo' x ∧ known memo' x.

(** What building objects does to a store: the store stays closed, nothing
    in it changes, and the values returned refer into it. *)
Definition built {A : Type} (vals : A → list value) (h : list object)
    (r : A * list object) : Prop :=
  closed r.2 ∧ h `prefix_of` r.2 ∧ Forall (below (length r.2)) (vals r.1).

End Store.

(** The collection [G2] of the library in an empty store: the instance
    and the store that holds it. *)
Definition show_store : nat * list Store.object :=
  Eval vm_compute in Store.store_coll Posix.show_coll [].

(** That store after [content] was called on the collection, and then with
    a [Media] created afterwards, descriptor first. *)
Definition show_store_snap : list Store.object :=
  Eval vm_compute in
    match Store.content 9 show_store.2 show_store.1 with
    | Some (_, h1) => h1
    | None => []
    end.

Definition show_store_later : list Store.object :=
  show_store_snap ++
  [Store.ODict [("title", Store.VStr "Extra")];
   Store.OInst Store.ClsMedia
     [("_path", Store.VStr "/x"); ("_video", Store.VStr "/x/16\video.m4s");
      ("_audio", Store.VStr "/x/16\audio.m4s");
      ("_entry", Store.VRef 15)]].

(** ** Vocabulary of the statements *)

(** The descriptor of the item folder [p] is the document [j]. *)
Definition descriptor_at (W : world) (p : string) (j : json) : Prop :=
  ∃ text, read_text W (path_join W p "entry.json") = Ok text ∧
          loads W text = Ok j.

(** The part title of a descriptor: [j['page_data']['part']]. *)
Definition part_title (j : json) : res json :=
  page_data ← subscript j "page_data";
  subscript page_data "part".

(** A descriptor with the three keys the accessors read, all strings. *)
Definition well_formed (j : json) : Prop :=
  ∃ part coll cover,
    part_title j = Ok (JStr part) ∧
    subscript j "title" = Ok (JStr coll) ∧
    subscript j "cover" = Ok (JStr cover).

Definition well_formed_item (W : world) (p : string) : Prop :=
  ∃ j, descriptor_at W p j ∧ well_formed j.

(** A group folder that lists at least one item, all of them well formed. *)
Definition well_formed_group (W : world) (g : string) : Prop :=
  ∃ ms, listdir W g = Ok ms ∧ ms ≠ [] ∧
        Forall (λ m, well_formed_item W (path_join W g m)) ms.

(** The item folder [name] of group [g] yields the object [x]. *)
Definition built_from (W : world) (g : string) (name : string)
    (x : Media.t) : Prop :=
  Media.init W (path_join W g name) = Ok x.

(** What [scan] makes of the child [d] of [path]: a [Media] built from the
    only grandchild, or a [Coll] built from the child itself. *)
Definition classified (W : world) (path d : string) (x : media_or_coll)
    : Prop :=
  ∃ c, listdir W (path_join W path d) = Ok c ∧
    ((∃ g m, c = [g] ∧ built_from W (path_join W path d) g m ∧
             x = IsMedia m)
     ∨ (length c ≠ 1 ∧
        ∃ co, Coll.init W (path_join W path d) = Ok co ∧ x = IsColl co)).


(** A [Media] as [Media.__init__] leaves it: its paths are under its
    folder and it holds the descriptor found there. *)
Definition media_sound (W : world) (m : Media.t) : Prop :=
  Media._video m = path_join W (Media._path m) "16\video.m4s" ∧
  Media._audio m = path_join W (Media._path m) "16\audio.m4s" ∧
  descriptor_at W (Media._path m) (Media._entry m).

(** A [Coll] as [Coll.__init__] leaves it: it has a first member, whose
    collection title is its name, and sound members. *)
Definition coll_sound (W : world) (c : Coll.t) : Prop :=
  (∃ first, Coll._l c !! 0 = Some first ∧
            Media.coll_name first = Ok (Coll._name c)) ∧
  Forall (media_sound W) (Coll._l c).

Definition entry_sound (W : world) (x : media_or_coll) : Prop :=
  match x with
  | IsMedia m => media_sound W m
  | IsColl c => coll_sound W c
  end.

(** ** Results and loops *)

Lemma bind_Ok {A B : Type} (r : res A) (f : A → res B) (b : B) :
  r ≫= f = Ok b ↔ ∃ a, r = Ok a ∧ f a = Ok b.
Proof.
  destruct r as [a|e]; simpl; split.
  - eauto.
  - intros (a' & [= <-] & H). exact H.
  - discriminate.
  - intros (a' & [=] & _).
Qed.

Lemma bind_Raise {A B : Type} (r : res A) (f : A → res B) (e : exn) :
  r = Raise e → r ≫= f = Raise e.
Proof. intros ->. reflexivity. Qed.

Lemma index_0_cons {A : Type} (x : A) (xs : list A) : index (x :: xs) 0 = Ok x.
Proof. reflexivity. Qed.

Lemma length_1_inv {A : Type} (c : list A) : length c = 1 → ∃ g, c = [g].
Proof. destruct c as [|g [|? ?]]; simpl; intros; try lia. eauto. Qed.

Section Loops.
Variable W : world.

Lemma init_loop_Ok (p : string) (names : list string) (l l' : list Media.t) :
  Coll.init_loop W p names l = Ok l' ↔
  ∃ xs, Forall2 (built_from W p) names xs ∧ l' = l ++ xs.
Proof.
  revert l. induction names as [|m rest IH]; intros l; simpl.
  - split.
    + intros [= <-]. exists []. split; [constructor | by rewrite app_nil_r].
    + intros (xs & HF & ->). inversion HF; subst. by rewrite app_nil_r.
  - rewrite bind_Ok. split.
    + intros (x & Hx & Hrest). apply IH in Hrest as (xs & HF & ->).
      exists (x :: xs). split; [by constructor | by rewrite <- app_assoc].
    + intros (xs & HF & ->). inversion HF as [|? x ? xs' Hx HF']; subst.
      exists x. split; [exact Hx |]. apply IH. exists xs'.
      split; [exact HF' | by rewrite <- app_assoc].
Qed.

Lemma init_loop_Raise (p : string) (n1 n2 : list string) (m : string)
    (l : list Media.t) (e : exn) :
  Forall (λ m', ∃ x, built_from W p m' x) n1 →
  Media.init W (path_join W p m) = Raise e →
  Coll.init_loop W p (n1 ++ m :: n2) l = Raise e.
Proof.
  intros HF Hm. revert l.
  induction HF as [|m' n1' [x Hx] _ IH]; intros l; simpl.
  - by rewrite Hm.
  - unfold built_from in Hx. rewrite Hx. simpl. apply IH.
Qed.

Lemma scan_loop_Ok (path : string) (ds : list string)
    (acc out : list media_or_coll) :
  scan_loop W path ds acc = Ok out ↔
  ∃ xs, Forall2 (classified W path) ds xs ∧ out = acc ++ xs.
Proof.
  revert acc. induction ds as [|d rest IH]; intros acc; simpl.
  - split.
    + intros [= <-]. exists []. split; [constructor | by rewrite app_nil_r].
    + intros (xs & HF & ->). inversion HF; subst. by rewrite app_nil_r.
  - split.
    + intros H. apply bind_Ok in H as (c & Hc & H).
      destruct (Nat.eqb (length c) 1) eqn:Hlen.
      * apply Nat.eqb_eq in Hlen. destruct (length_1_inv c Hlen) as [g ->].
        rewrite index_0_cons in H. simpl in H.
        apply bind_Ok in H as (m & Hm & H).
        apply IH in H as (xs & HF & ->).
        exists (IsMedia m :: xs). split; [| by rewrite <- app_assoc].
        constructor; [| exact HF].
        exists [g]. split; [exact Hc |]. left. by exists g, m.
      * apply Nat.eqb_neq in Hlen.
        apply bind_Ok in H as (co & Hco & H).
        apply IH in H as (xs & HF & ->).
        exists (IsColl co :: xs). split; [| by rewrite <- app_assoc].
        constructor; [| exact HF].
        exists c. split; [exact Hc |]. right. split; [exact Hlen |].
        by exists co.
    + intros (xs & HF & ->).
      inversion HF as [|? x ? xs' (c & Hc & Hx) HF']; subst.
      rewrite Hc. simpl.
      destruct Hx as [(g & m & -> & Hm & ->) | (Hlen & co & Hco & ->)].
      * simpl. unfold built_from in Hm. rewrite Hm. simpl.
        apply IH. exists xs'. split; [exact HF' | by rewrite <- app_assoc].
      * apply Nat.eqb_neq in Hlen. rewrite Hlen, Hco. simpl.
        apply IH. exists xs'. split; [exact HF' | by rewrite <- app_assoc].
Qed.


End Loops.

(** ** Constructors *)

Lemma media_init_Ok (W : world) (p : string) (m : Media.t) :
  Media.init W p = Ok m ↔
  descriptor_at W p (Media._entry m) ∧
  Media._path m = p ∧
  Media._video m = path_join W p "16\video.m4s" ∧
  Media._audio m = path_join W p "16\audio.m4s".
Proof.
  unfold Media.init, descriptor_at. split.
  - intros H. apply bind_Ok in H as (text & Ht & H).
    apply bind_Ok in H as (j & Hj & [= <-]). simpl.
    split; [by exists text | done].
  - intros ((text & Ht & Hj) & Hp & Hv & Ha). rewrite Ht. simpl.
    rewrite Hj. simpl. destruct m; simpl in *. congruence.
Qed.

Lemma media_init_descriptor (W : world) (p : string) (j : json) :
  descriptor_at W p j →
  Media.init W p =
  Ok {| Media._path := p;
        Media._video := path_join W p "16\video.m4s";
        Media._audio := path_join W p "16\audio.m4s";
        Media._entry := j |}.
Proof. intros H. by apply media_init_Ok. Qed.

Lemma coll_init_Ok (W : world) (p : string) (co : Coll.t) :
  Coll.init W p = Ok co ↔
  ∃ names first,
    listdir W p = Ok names ∧
    Forall2 (built_from W p) names (Coll._l co) ∧
    Coll._l co !! 0 = Some first ∧
    Media.coll_name first = Ok (Coll._name co) ∧
    Coll._path co = p.
Proof.
  unfold Coll.init. split.
  - intros H. apply bind_Ok in H as (names & Hn & H).
    apply bind_Ok in H as (l & Hl & H).
    apply bind_Ok in H as (first & Hf & H).
    apply bind_Ok in H as (name & Hname & [= <-]). simpl.
    apply init_loop_Ok in Hl as (xs & HF & ->). simpl in *.
    unfold index in Hf. destruct (xs !! 0) as [x|] eqn:Hx; [| discriminate].
    injection Hf as ->. by exists names, first.
  - intros (names & first & Hn & HF & Hf & Hname & Hp).
    rewrite Hn. simpl.
    rewrite (proj2 (init_loop_Ok W p names [] (Coll._l co)))
      by (by exists (Coll._l co)).
    simpl. unfold index. rewrite Hf. simpl. rewrite Hname. simpl.
    destruct co; simpl in *. congruence.
Qed.

Lemma Forall2_built (W : world) (g : string) (ms : list string) :
  Forall (λ m, well_formed_item W (path_join W g m)) ms →
  ∃ xs, Forall2 (built_from W g) ms xs ∧
        Forall (λ x, well_formed (Media._entry x)) xs.
Proof.
  induction 1 as [|m ms (j & Hd & Hj) _ (xs & HF & Hwf)].
  - exists []. split; constructor.
  - eexists (_ :: xs). split.
    + constructor; [| exact HF]. by apply media_init_descriptor.
    + constructor; [exact Hj | exact Hwf].
Qed.

(** A group whose items are all well formed is classified. *)
Lemma well_formed_group_classified (W : world) (root d : string) :
  well_formed_group W (path_join W root d) →
  ∃ x, classified W root d x.
Proof.
  intros (ms & Hms & Hne & Hwf).
  destruct (Forall2_built W _ ms Hwf) as (xs & HF & Hxs).
  destruct (decide (length ms = 1)) as [Hlen|Hlen].
  - destruct (length_1_inv ms Hlen) as [g ->].
    inversion HF as [|? x ? ? Hx _]; subst.
    exists (IsMedia x), [g]. split; [exact Hms |]. left. by exists g, x.
  - destruct xs as [|first xs'].
    { inversion HF; subst. done. }
    apply Forall_cons in Hxs as [(part & coll & cover & _ & Hcoll & _) _].
    exists (IsColl {| Coll._path := path_join W root d;
                      Coll._l := first :: xs';
                      Coll._name := JStr coll |}), ms.
    split; [exact Hms |]. right. split; [exact Hlen |].
    eexists. split; [| reflexivity].
    apply coll_init_Ok. exists ms, first. by simpl.
Qed.

Lemma Forall2_classified (W : world) (root : string) (ds : list string) :
  Forall (λ d, ∃ x, classified W root d x) ds →
  ∃ xs, Forall2 (classified W root) ds xs.
Proof.
  induction 1 as [|d ds [x Hx] _ [xs HF]].
  - exists []. constructor.
  - exists (x :: xs). by constructor.
Qed.

Lemma descriptor_at_fun (W : world) (p : string) (j j' : json) :
  descriptor_at W p j → descriptor_at W p j' → j = j'.
Proof.
  intros (text & Ht & Hj) (text' & Ht' & Hj').
  rewrite Ht in Ht'. injection Ht' as <-. rewrite Hj in Hj'.
  by injection Hj'.
Qed.

(** ** The scanner *)

(** C1. [scan] returns a catalog exactly when the root can be listed and
    every child is classified, and then the catalog has one entry per
    child, in the order of the listing: a [Media] built from the only
    grandchild where the child lists exactly one name, and a [Coll] built
    from the child itself otherwise. *)
Theorem scan_classifies_children (W : world) (root : string)
    (result : list media_or_coll) :
  scan W root = Ok result ↔
  ∃ ds, listdir W root = Ok ds ∧ Forall2 (classified W root) ds result.
Proof.
  unfold scan. rewrite bind_Ok. split.
  - intros (ds & Hds & H). apply scan_loop_Ok in H as (xs & HF & ->).
    by exists ds.
  - intros (ds & Hds & HF). exists ds. split; [exact Hds |].
    apply scan_loop_Ok. by exists result.
Qed.

(** C3. In a root whose groups are all well formed, [scan] returns a
    catalog, and a group that lists N >= 2 items is in it as a [Coll] of
    length N, whose members are the objects built from the listed items, in
    the order of the listing, and whose name is the collection title that
    the descriptor of the first listed item holds. *)
Theorem scan_collection (W : world) (root : string) (ds : list string) :
  listdir W root = Ok ds →
  Forall (λ d, well_formed_group W (path_join W root d)) ds →
  ∃ result,
    scan W root = Ok result ∧
    length result = length ds ∧
    ∀ i d ms,
      ds !! i = Some d →
      listdir W (path_join W root d) = Ok ms →
      2 ≤ length ms →
      ∃ co first m0 j0 coll,
        result !! i = Some (IsColl co) ∧
        Coll.len co = length ms ∧
        Forall2 (built_from W (path_join W root d)) ms (Coll._l co) ∧
        Coll._l co !! 0 = Some first ∧
        Media.coll_name first = Ok (Coll.name co) ∧
        ms !! 0 = Some m0 ∧
        descriptor_at W (path_join W (path_join W root d) m0) j0 ∧
        subscript j0 "title" = Ok (JStr coll) ∧
        Coll.name co = JStr coll.
Proof.
  intros Hds Hwf.
  destruct (Forall2_classified W root ds) as [result HF].
  { eapply Forall_impl; [exact Hwf |]. intros d Hd.
    by apply well_formed_group_classified. }
  exists result. split; [| split].
  - unfold scan. rewrite Hds. simpl. apply scan_loop_Ok. by exists result.
  - symmetry. by eapply Forall2_length.
  - intros i d ms Hi Hms Hlen.
    destruct (Forall2_lookup_l _ _ _ _ _ HF Hi) as (x & Hx & (c & Hc & Hcl)).
    rewrite Hms in Hc. injection Hc as <-.
    destruct Hcl as [(g & m & -> & _) | (_ & co & Hco & ->)].
    { simpl in Hlen. lia. }
    apply coll_init_Ok in Hco as (names & first & Hn & HF' & Hf & Hname & _).
    rewrite Hms in Hn. injection Hn as <-.
    destruct (Forall2_lookup_r _ _ _ _ _ HF' Hf) as (m0 & Hm0 & Hfirst).
    apply media_init_Ok in Hfirst as (Hd0 & _).
    destruct (Forall_lookup_1 _ _ _ _ Hwf Hi) as (ms' & Hms' & _ & Hitems).
    rewrite Hms in Hms'. injection Hms' as <-.
    destruct (Forall_lookup_1 _ _ _ _ Hitems Hm0)
      as (j & Hj & (part & coll & cover & _ & Hcoll & _)).
    pose proof (descriptor_at_fun W _ _ _ Hd0 Hj) as Hentry.
    exists co, first, m0, j, coll.
    repeat (split; [done |]).
    split; [unfold Coll.len; symmetry; by eapply Forall2_length |].
    repeat (split; [done |]).
    unfold Media.coll_name in Hname. rewrite Hentry, Hcoll in Hname.
    unfold Coll.name. by injection Hname.
Qed.

Lemma library_well_formed :
  Forall (λ d, well_formed_group Posix.library_host
                 (path_join Posix.library_host "/R" d)) ["G1"; "G2"].
Proof.
  assert (Hitem : ∀ p part coll,
    descriptor_at Posix.library_host p
      (Posix.entry_value part coll "http://i0.hdslb.com/c.jpg") →
    well_formed_item Posix.library_host p).
  { intros p part coll Hd. eexists. split; [exact Hd |].
    by exists part, coll, "http://i0.hdslb.com/c.jpg". }
  repeat constructor.
  - exists ["a1"]. split; [vm_compute; reflexivity |].
    split; [discriminate |]. repeat constructor.
    apply (Hitem _ "EP1" "EP1"). eexists. split; vm_compute; reflexivity.
  - exists ["b1"; "b2"]. split; [vm_compute; reflexivity |].
    split; [discriminate |]. repeat constructor.
    + apply (Hitem _ "EP1" "Show"). eexists. split; vm_compute; reflexivity.
    + apply (Hitem _ "EP2" "Show"). eexists. split; vm_compute; reflexivity.
Defined.

Lemma scan_collection_witness :
  ∃ co first,
    scan Posix.library_host "/R" ≫= (λ result, index result 1) =
      Ok (IsColl co) ∧
    Coll.len co = 2 ∧
    Coll._l co !! 0 = Some first ∧
    Media.coll_name first = Ok (Coll.name co) ∧
    Coll.name co = JStr "Show".
Proof.
  destruct (scan_collection Posix.library_host "/R" ["G1"; "G2"])
    as (result & Hscan & _ & Hgroups).
  - vm_compute. reflexivity.
  - exact library_well_formed.
  - destruct (Hgroups 1 "G2" ["b1"; "b2"])
      as (co & first & m0 & j0 & coll & Hi & Hlen & _ & H0 & Hname & Hm0
          & Hd0 & Hcoll & Hco).
    + reflexivity.
    + vm_compute. reflexivity.
    + simpl. lia.
    + exists co, first. rewrite Hscan. simpl. unfold index. rewrite Hi.
      repeat (split; [done |]). rewrite Hco.
      injection Hm0 as <-.
      assert (Hb1 : descriptor_at Posix.library_host
                (path_join Posix.library_host
                   (path_join Posix.library_host "/R" "G2") "b1")
                (Posix.entry_value "EP1" "Show" "http://i0.hdslb.com/c.jpg")).
      { eexists. split; vm_compute; reflexivity. }
      rewrite (descriptor_at_fun _ _ _ _ Hd0 Hb1) in Hcoll.
      vm_compute in Hcoll. by injection Hcoll as <-.
Defined.

Example show_coll_built :
  Coll.init Posix.library_host "/R/G2" = Ok Posix.show_coll.
Proof. vm_compute. reflexivity. Qed.

(** The two scenarios of the specification, in one root: the group [G1]
    with the lone item [a1] (part [EP1], collection [EP1]) and the group
    [G2] with the items [b1] and [b2] (parts [EP1] and [EP2], collection
    [Show]). *)
Example scan_library :
  ∃ m c,
    scan Posix.library_host "/R" = Ok [IsMedia m; IsColl c] ∧
    Media.title m = Ok (JStr "EP1") ∧
    Media.is_in_any_coll m = Ok false ∧
    Coll.name c = JStr "Show" ∧
    Coll.len c = 2 ∧
    Coll.video_titles c = Ok [JStr "EP1"; JStr "EP2"].
Proof. do 2 eexists. split; [vm_compute; reflexivity |]. by repeat split. Qed.

(** ** Descriptors and accessors *)

Lemma py_eq_str (a b : string) : py_eq (JStr a) (JStr b) = String.eqb a b.
Proof. reflexivity. Qed.

(** C2. For an item folder whose descriptor parses and holds a part title
    and a collection title, the object is built, [title] returns the part
    title, and [is_in_any_coll] returns [False] exactly when the two titles
    are equal. *)
Theorem media_title_and_membership (W : world) (p : string) (j : json)
    (part coll : string) :
  descriptor_at W p j →
  part_title j = Ok (JStr part) →
  subscript j "title" = Ok (JStr coll) →
  ∃ m, Media.init W p = Ok m ∧
       Media.title m = Ok (JStr part) ∧
       Media.is_in_any_coll m = Ok (negb (String.eqb part coll)) ∧
       (Media.is_in_any_coll m = Ok false ↔ part = coll).
Proof.
  intros Hd Hpart Hcoll. eexists. split; [by apply media_init_descriptor |].
  unfold Media.is_in_any_coll, Media.title, Media.coll_name. simpl.
  unfold part_title in Hpart. rewrite Hpart, Hcoll. simpl.
  repeat split; try done.
  - intros [= H]. apply negb_false_iff in H. by apply String.eqb_eq.
  - intros ->. by rewrite String.eqb_refl.
Qed.

Lemma media_title_and_membership_witness :
  (∃ m, Media.init Posix.library_host "/R/G2/b1" = Ok m ∧
        Media.title m = Ok (JStr "EP1") ∧
        Media.is_in_any_coll m = Ok (negb (String.eqb "EP1" "Show")) ∧
        (Media.is_in_any_coll m = Ok false ↔ "EP1" = "Show")) ∧
  (∃ m, Media.init Posix.library_host "/R/G1/a1" = Ok m ∧
        Media.title m = Ok (JStr "EP1") ∧
        Media.is_in_any_coll m = Ok (negb (String.eqb "EP1" "EP1")) ∧
        (Media.is_in_any_coll m = Ok false ↔ "EP1" = "EP1")).
Proof.
  split.
  - apply (media_title_and_membership Posix.library_host "/R/G2/b1"
             (Posix.entry_value "EP1" "Show" "http://i0.hdslb.com/c.jpg")).
    + eexists. split; vm_compute; reflexivity.
    + reflexivity.
    + reflexivity.
  - apply (media_title_and_membership Posix.library_host "/R/G1/a1"
             (Posix.entry_value "EP1" "EP1" "http://i0.hdslb.com/c.jpg")).
    + eexists. split; vm_compute; reflexivity.
    + reflexivity.
    + reflexivity.
Defined.

(** C4, as the code has it.  Building a [Media] raises what opening the
    descriptor raises ([FileNotFoundError] for a missing file), raises what
    [loads] raises ([JSONDecodeError] for a text that is not JSON), and
    succeeds on every text that [loads] accepts, whatever keys it has. *)
Theorem media_init_outcome (W : world) (p : string) :
  (∀ e, read_text W (path_join W p "entry.json") = Raise e →
        Media.init W p = Raise e) ∧
  (∀ text e, read_text W (path_join W p "entry.json") = Ok text →
             loads W text = Raise e →
             Media.init W p = Raise e) ∧
  (∀ text j, read_text W (path_join W p "entry.json") = Ok text →
             loads W text = Ok j →
             ∃ m, Media.init W p = Ok m ∧ Media._entry m = j).
Proof.
  unfold Media.init. repeat split.
  - intros e ->. reflexivity.
  - intros text e -> H. simpl. by rewrite H.
  - intros text j -> H. simpl. rewrite H. simpl. by eexists.
Qed.

Lemma media_init_outcome_witness :
  Media.init Posix.damaged_host "/R/G2/b1" =
    Raise (FileNotFoundError "/R/G2/b1/entry.json") ∧
  Media.init Posix.damaged_host "/R/G1/a1" = Raise JSONDecodeError ∧
  ∃ m, Media.init Posix.keyless_host "/R/G1/a1" = Ok m ∧
       Media._entry m = JObj [].
Proof.
  split; [| split].
  - apply (proj1 (media_init_outcome Posix.damaged_host "/R/G2/b1")).
    vm_compute. reflexivity.
  - apply (proj1 (proj2 (media_init_outcome Posix.damaged_host "/R/G1/a1"))
             "<html>").
    + vm_compute. reflexivity.
    + vm_compute. reflexivity.
  - apply (proj2 (proj2 (media_init_outcome Posix.keyless_host "/R/G1/a1"))
             "{}").
    + vm_compute. reflexivity.
    + vm_compute. reflexivity.
Defined.

(** C4 as stated fails: the descriptor [{}] has none of the three keys,
    and the object is built all the same. *)
Lemma media_init_keyless_counterexample :
  descriptor_at Posix.keyless_host "/R/G1/a1" (JObj []) ∧
  part_title (JObj []) = Raise (KeyError "page_data") ∧
  subscript (JObj []) "title" = Raise (KeyError "title") ∧
  subscript (JObj []) "cover" = Raise (KeyError "cover") ∧
  ¬ ∃ e, Media.init Posix.keyless_host "/R/G1/a1" = Raise e.
Proof.
  repeat split.
  - exists "{}". split; vm_compute; reflexivity.
  - intros [e H]. vm_compute in H. discriminate.
Qed.

(** C10. A descriptor that is a JSON object is accepted whatever keys it
    has; a missing key raises [KeyError] when the accessor that reads it is
    called: [coll_name] for [title], [cover_url] for [cover], [title] for
    [page_data] and [part], and [is_in_any_coll] for all but [cover]. *)
Theorem missing_key_surfaces_at_accessor (W : world) (p : string)
    (ms : list (string * json)) :
  descriptor_at W p (JObj ms) →
  ∃ m, Media.init W p = Ok m ∧
    (assoc "title" ms = None →
       Media.coll_name m = Raise (KeyError "title")) ∧
    (assoc "cover" ms = None →
       Media.cover_url m = Raise (KeyError "cover")) ∧
    (assoc "page_data" ms = None →
       Media.title m = Raise (KeyError "page_data") ∧
       Media.is_in_any_coll m = Raise (KeyError "page_data")) ∧
    (∀ pd, assoc "page_data" ms = Some (JObj pd) →
           assoc "part" pd = None →
       Media.title m = Raise (KeyError "part") ∧
       Media.is_in_any_coll m = Raise (KeyError "part")) ∧
    (∀ v, part_title (JObj ms) = Ok v →
          assoc "title" ms = None →
       Media.is_in_any_coll m = Raise (KeyError "title")).
Proof.
  intros Hd. eexists. split; [by apply media_init_descriptor |].
  unfold Media.coll_name, Media.cover_url, Media.is_in_any_coll, Media.title,
    part_title.
  simpl. split; [| split; [| split; [| split]]].
  - by intros ->.
  - by intros ->.
  - by intros ->.
  - intros pd -> Hpart. simpl. by rewrite Hpart.
  - intros v Hv Ht. rewrite Hv. simpl. unfold Media.coll_name. simpl.
    by rewrite Ht.
Qed.

Lemma missing_key_surfaces_at_accessor_witness :
  ∃ m, Media.init Posix.keyless_host "/R/G1/a1" = Ok m ∧
       Media.coll_name m = Raise (KeyError "title") ∧
       Media.cover_url m = Raise (KeyError "cover") ∧
       Media.title m = Raise (KeyError "page_data") ∧
       Media.is_in_any_coll m = Raise (KeyError "page_data").
Proof.
  destruct (missing_key_surfaces_at_accessor Posix.keyless_host "/R/G1/a1" [])
    as (m & Hm & Hcoll & Hcover & Hpd & _).
  - exists "{}". split; vm_compute; reflexivity.
  - exists m. split; [exact Hm |].
    split; [apply Hcoll; reflexivity |].
    split; [apply Hcover; reflexivity |].
    apply Hpd. reflexivity.
Defined.

(** ** Failures of the scan *)







(** C8. When the root cannot be listed, [scan] raises what [os.listdir]
    raises and returns no catalog: [FileNotFoundError] for a path that does
    not exist, [NotADirectoryError] for one that is not a directory. *)
Theorem scan_root_not_found (W : world) (root : string) (e : exn) :
  listdir W root = Raise e →
  scan W root = Raise e ∧ ∀ result, scan W root ≠ Ok result.
Proof.
  intros H. unfold scan. rewrite H. simpl. split; [reflexivity | discriminate].
Qed.

Lemma scan_root_not_found_witness :
  (scan Posix.library_host "/nowhere" = Raise (FileNotFoundError "/nowhere") ∧
   ∀ result, scan Posix.library_host "/nowhere" ≠ Ok result) ∧
  (scan Posix.library_host "/R/G1/a1/entry.json" =
     Raise (NotADirectoryError "/R/G1/a1/entry.json") ∧
   ∀ result, scan Posix.library_host "/R/G1/a1/entry.json" ≠ Ok result).
Proof.
  split.
  - apply (scan_root_not_found Posix.library_host "/nowhere").
    vm_compute. reflexivity.
  - apply (scan_root_not_found Posix.library_host "/R/G1/a1/entry.json").
    vm_compute. reflexivity.
Defined.

(** C9. Building a [Coll] from a folder that lists no name raises
    [IndexError], at [self._l[0]]; no object is returned. *)
Theorem coll_init_empty (W : world) (p : string) :
  listdir W p = Ok [] →
  Coll.init W p = Raise IndexError.
Proof. intros H. unfold Coll.init. rewrite H. reflexivity. Qed.

Lemma coll_init_empty_witness :
  Coll.init Posix.hollow_host "/R/G1" = Raise IndexError.
Proof.
  apply (coll_init_empty Posix.hollow_host "/R/G1").
  vm_compute. reflexivity.
Defined.

(** C7. What [Media.__init__] does depends on the host only through the
    text of the descriptor: two hosts that give the same answer when it is
    opened build the same object or raise the same exception, whatever else
    they hold.  Where the descriptor parses, an object is built, on either
    host, and its paths are the folder joined with the fixed [16\video.m4s]
    and [16\audio.m4s]. *)
Theorem media_paths_are_joined (W W' : world) (p : string) :
  (∀ a b, path_join W' a b = path_join W a b) →
  (∀ s, loads W' s = loads W s) →
  read_text W' (path_join W p "entry.json") =
    read_text W (path_join W p "entry.json") →
  Media.init W' p = Media.init W p ∧
  ∀ j, descriptor_at W p j →
    ∃ m,
      Media.init W p = Ok m ∧
      Media.init W' p = Ok m ∧
      Media._path m = p ∧
      Media.video m = path_join W p "16\video.m4s" ∧
      Media.audio m = path_join W p "16\audio.m4s" ∧
      Media._entry m = j.
Proof.
  intros Hjoin Hloads Hread.
  assert (Hsame : Media.init W' p = Media.init W p).
  { unfold Media.init. rewrite !Hjoin, Hread.
    destruct (read_text W _) as [text|]; simpl; [| reflexivity].
    by rewrite Hloads. }
  split; [exact Hsame |].
  intros j Hj. pose proof (media_init_descriptor W p j Hj) as Hm.
  eexists. split; [exact Hm |]. split; [by rewrite Hsame |]. by repeat split.
Qed.

Lemma media_paths_are_joined_witness :
  Media.init Posix.stripped_host "/R/G1/a1" =
    Media.init Posix.library_host "/R/G1/a1" ∧
  ∃ m,
    Media.init Posix.library_host "/R/G1/a1" = Ok m ∧
    Media.init Posix.stripped_host "/R/G1/a1" = Ok m ∧
    Media._path m = "/R/G1/a1" ∧
    Media.video m = "/R/G1/a1/16\video.m4s" ∧
    Media.audio m = "/R/G1/a1/16\audio.m4s" ∧
    Media._entry m =
      Posix.entry_value "EP1" "EP1" "http://i0.hdslb.com/c.jpg".
Proof.
  destruct (media_paths_are_joined Posix.library_host Posix.stripped_host
              "/R/G1/a1") as [Hsame Hbuilt].
  - reflexivity.
  - reflexivity.
  - vm_compute. reflexivity.
  - split; [exact Hsame |].
    apply (Hbuilt (Posix.entry_value "EP1" "EP1" "http://i0.hdslb.com/c.jpg")).
    eexists. split; vm_compute; reflexivity.
Defined.

(** ** deepcopy *)

Module StoreFacts.
Import Store.

Lemma rename_known (memo memo' : gmap loc loc) (x : value) :
  known memo x → memo ⊆ memo' → rename memo' x = rename memo x.
Proof.
  destruct x as [| | | | |l]; simpl; try done.
  intros [y Hy] Hsub. by rewrite Hy, (lookup_weaken _ _ _ _ Hy Hsub).
Qed.

Lemma known_mono (memo memo' : gmap loc loc) (x : value) :
  known memo x → memo ⊆ memo' → known memo' x.
Proof.
  destruct x as [| | | | |l]; simpl; try done.
  intros [y Hy] Hsub. exists y. by eapply lookup_weaken.
Qed.

Lemma rename_all_known (memo memo' : gmap loc loc) (xs : list value) :
  Forall (known memo) xs → memo ⊆ memo' →
  rename memo' <$> xs = rename memo <$> xs.
Proof.
  intros HF Hsub. induction HF as [|x xs Hx _ IH]; csimpl; [done |].
  by rewrite IH, (rename_known memo memo' x).
Qed.

Lemma unvisited_mono (n : nat) (memo memo' : gmap loc loc) :
  memo ⊆ memo' → unvisited n memo' ≤ unvisited n memo.
Proof.
  intros Hsub. unfold unvisited. apply subseteq_size.
  apply subseteq_dom in Hsub. set_solver.
Qed.

Lemma unvisited_insert (n : nat) (memo : gmap loc loc) (l y : loc) :
  memo !! l = None → l < n →
  unvisited n (<[l := y]> memo) < unvisited n memo.
Proof.
  intros Hl Hn. unfold unvisited. apply subset_size.
  rewrite dom_insert_L. apply not_elem_of_dom in Hl.
  assert (l ∈ (set_seq 0 n : gset nat)) by (apply elem_of_set_seq; lia).
  set_solver.
Qed.

Lemma children_with_children (o : object) (cs : list value) :
  length cs = length (children o) →
  children (with_children o cs) = cs.
Proof.
  destruct o as [items|items|cls attrs]; simpl; [done | |];
    intros Hlen; apply snd_zip; rewrite length_fmap in Hlen;
    rewrite length_fmap; lia.
Qed.

Section Copy.
Variable h : heap.
Variable n : nat.
Hypothesis Hclosed : closed h.

Lemma copy_pre_length (memo : gmap loc loc) (g : heap) :
  copy_pre h n memo g → length h ≤ length g.
Proof.
  intros (Hpre & _). destruct (length h) as [|b] eqn:Hb; [lia |].
  assert (Hlt : b < length h) by lia.
  apply lookup_lt_is_Some_2 in Hlt. rewrite <- Hpre in Hlt by lia.
  apply lookup_lt_is_Some_1 in Hlt. lia.
Qed.

Lemma copy_post_refl (memo : gmap loc loc) (g : heap) :
  copy_pre h n memo g → copy_post h n memo g memo g.
Proof.
  intros (_ & Hmemo & _).
  split; [lia |]. split; [done |]. split; [done |]. split; [done |].
  intros k k' Hk Hnone. by rewrite Hk in Hnone.
Qed.

Lemma copy_post_pre (memo memo' : gmap loc loc) (g g' : heap) :
  copy_pre h n memo g → copy_post h n memo g memo' g' →
  copy_pre h n memo' g'.
Proof.
  intros Hpre (Hlen & Hold & _ & Hmemo & _).
  pose proof (copy_pre_length _ _ Hpre) as Hb.
  destruct Hpre as (Hpre & _ & Hn).
  split; [| split; [done | lia]].
  intros k Hk. rewrite Hold by lia. by apply Hpre.
Qed.

Lemma copied_mono (memo memo' : gmap loc loc) (g g' : heap) (k k' : loc) :
  copied memo h g k k' → memo ⊆ memo' → g' !! k' = g !! k' →
  copied memo' h g' k k'.
Proof.
  intros (o & Ho & Hk' & Hknown) Hsub Hg. exists o. split; [done |]. split.
  - by rewrite Hg, (rename_all_known memo memo').
  - eapply Forall_impl; [exact Hknown |]. intros x Hx.
    by eapply known_mono.
Qed.

Lemma copy_post_trans (m0 m1 m2 : gmap loc loc) (g0 g1 g2 : heap) :
  copy_post h n m0 g0 m1 g1 → copy_post h n m1 g1 m2 g2 →
  copy_post h n m0 g0 m2 g2.
Proof.
  intros (Hlen1 & Hold1 & Hsub1 & Hmemo1 & Hnew1)
         (Hlen2 & Hold2 & Hsub2 & Hmemo2 & Hnew2).
  split; [lia |]. split; [| split; [| split]].
  - intros k Hk. rewrite Hold2 by lia. by apply Hold1.
  - by etrans.
  - done.
  - intros k k' Hk Hk0. destruct (m1 !! k) as [k1|] eqn:Hk1.
    + pose proof (lookup_weaken _ _ _ _ Hk1 Hsub2) as Hk2.
      rewrite Hk in Hk2. injection Hk2 as ->.
      destruct (Hnew1 k k1 Hk1 Hk0) as [Hge Hcopied]. split; [done |].
      eapply copied_mono; [exact Hcopied | done |].
      apply Hold2. by eapply Hmemo1.
    + destruct (Hnew2 k k' Hk Hk1) as [Hge Hcopied]. split; [lia | done].
Qed.

Lemma copy_all_ok (fuel : nat)
    (f : gmap loc loc → heap → value → option (value * gmap loc loc * heap)) :
  step_ok h n fuel f →
  ∀ xs memo g,
    copy_pre h n memo g → Forall (below (length h)) xs →
    unvisited (length h) memo < fuel →
    ∃ xs' memo' g',
      copy_all f memo g xs = Some (xs', memo', g') ∧
      copy_post h n memo g memo' g' ∧
      xs' = rename memo' <$> xs ∧ Forall (known memo') xs.
Proof.
  intros Hf xs. induction xs as [|x xs IH]; intros memo g Hpre Hxs Hfuel.
  - exists [], memo, g.
    split; [done |]. split; [by apply copy_post_refl |]. by split.
  - apply Forall_cons in Hxs as [Hx Hxs].
    destruct (Hf memo g x Hpre Hx Hfuel)
      as (x' & m1 & g1 & Hstep & Hpost1 & -> & Hknown).
    pose proof (copy_post_pre _ _ _ _ Hpre Hpost1) as Hpre1.
    assert (Hsub1 : memo ⊆ m1) by apply Hpost1.
    destruct (IH m1 g1 Hpre1 Hxs) as (xs' & m2 & g2 & Hrest & Hpost2 & -> & Hknowns).
    { pose proof (unvisited_mono (length h) _ _ Hsub1). lia. }
    assert (Hsub2 : m1 ⊆ m2) by apply Hpost2.
    exists (rename m2 x :: (rename m2 <$> xs)), m2, g2. split; [| split; [| split]].
    + simpl. rewrite Hstep. simpl. rewrite Hrest. simpl.
      by rewrite (rename_known m1 m2 x).
    + by eapply copy_post_trans.
    + done.
    + constructor; [by eapply known_mono | done].
Qed.

Lemma closed_children (l : loc) (o : object) :
  h !! l = Some o → Forall (below (length h)) (children o).
Proof. intros Hl. by eapply (Forall_lookup_1 _ _ _ _ Hclosed). Qed.

Lemma deepcopy_ok (fuel : nat) : step_ok h n fuel (deepcopy fuel).
Proof.
  induction fuel as [|fuel IH]; intros memo g x Hpre Hx Hfuel; [lia |].
  assert (Hatom : ∀ a : value, rename memo a = a → known memo a →
    ∃ x' memo' g', Some (a, memo, g) = Some (x', memo', g') ∧
      copy_post h n memo g memo' g' ∧ x' = rename memo' a ∧ known memo' a).
  { intros a Ha Hk. exists a, memo, g. split; [done |].
    split; [by apply copy_post_refl |]. by split. }
  destruct x as [| | | | |l]; try (by apply Hatom).
  simpl. destruct (memo !! l) as [y|] eqn:Hl.
  { exists (VRef y), memo, g. split; [done |].
    split; [by apply copy_post_refl |]. simpl. rewrite Hl. by split. }
  simpl in Hx. pose proof (copy_pre_length _ _ Hpre) as Hb.
  destruct (lookup_lt_is_Some_2 h l Hx) as [o Ho].
  destruct Hpre as (Hold & Hmemo & Hn).
  assert (Hg : g !! l = Some o) by (by rewrite Hold).
  rewrite Hg. simpl.
  set (y := length g). set (g0 := g ++ [with_children o []]).
  set (m0 := <[l := y]> memo).
  assert (Hpre0 : copy_pre h n m0 g0).
  { split; [| split].
    - intros k Hk. unfold g0. rewrite lookup_app_l by lia. by apply Hold.
    - intros k k' Hk. unfold g0. rewrite length_app. simpl.
      unfold m0 in Hk. apply lookup_insert_Some in Hk as [[<- <-] | [_ Hk]].
      + unfold y. lia.
      + apply Hmemo in Hk. lia.
    - unfold g0. rewrite length_app. lia. }
  destruct (copy_all_ok fuel (deepcopy fuel) IH (children o) m0 g0 Hpre0)
    as (cs & m' & g1 & Hall & Hpost0 & Hcs & Hknown).
  { by eapply closed_children. }
  { pose proof (unvisited_insert (length h) memo l y Hl Hx).
    unfold m0. lia. }
  destruct Hpost0 as (Hlen0 & Hold0 & Hsub0 & Hmemo0 & Hnew0).
  assert (Hlen_g0 : length g0 = S (length g)).
  { unfold g0. rewrite length_app. simpl. lia. }
  assert (Hly : m' !! l = Some y).
  { eapply lookup_weaken; [| exact Hsub0]. unfold m0. apply lookup_insert_eq. }
  exists (VRef y), m', (<[y := with_children o cs]> g1).
  split; [by rewrite Hall |]. split; [| split].
  - split; [rewrite length_insert; lia |]. split; [| split; [| split]].
    + intros k Hk. rewrite list_lookup_insert_ne by (unfold y; lia).
      rewrite Hold0 by lia. unfold g0. by rewrite lookup_app_l.
    + etrans; [| exact Hsub0]. unfold m0. by apply insert_subseteq.
    + intros k k' Hk. rewrite length_insert. by apply Hmemo0.
    + intros k k' Hk Hnone. destruct (decide (k = l)) as [->|Hne].
      * rewrite Hly in Hk. injection Hk as <-. split; [done |].
        exists o. split; [done |]. split; [| done].
        rewrite list_lookup_insert_eq by lia. by rewrite Hcs.
      * destruct (Hnew0 k k' Hk) as [Hge Hcopied].
        { unfold m0. by rewrite lookup_insert_ne. }
        split; [lia |]. eapply copied_mono; [exact Hcopied | done |].
        apply list_lookup_insert_ne. unfold y. lia.
  - simpl. by rewrite Hly.
  - simpl. by rewrite Hly.
Qed.

End Copy.

Lemma unvisited_empty (b : nat) : unvisited b ∅ = b.
Proof.
  unfold unvisited. rewrite dom_empty_L, difference_empty_L.
  apply size_set_seq.
Qed.

(** A [deepcopy] with an empty memo, started in a store [g] that still
    holds the closed store [h] as it was. *)
Lemma deepcopy_fresh (h g : list object) (l fuel : nat) :
  closed h →
  (∀ k, k < length h → g !! k = h !! k) →
  l < length h →
  length h < fuel →
  ∃ y memo g',
    deepcopy fuel ∅ g (VRef l) = Some (VRef y, memo, g') ∧
    (∀ k, k < length g → g' !! k = g !! k) ∧
    memo !! l = Some y ∧
    memo_ok (length h) (length g) memo g' ∧
    is_copy memo h g'.
Proof.
  intros Hclosed Hold Hl Hfuel.
  destruct (deepcopy_ok h (length g) Hclosed fuel ∅ g (VRef l))
    as (x' & memo & g' & Hrun & Hpost & Hx' & [y Hy]).
  - split; [done |]. split; [| done]. intros k k' Hk.
    by rewrite lookup_empty in Hk.
  - exact Hl.
  - by rewrite unvisited_empty.
  - simpl in Hx'. rewrite Hy in Hx'. subst x'.
    destruct Hpost as (_ & Hold' & _ & Hmemo & Hnew).
    exists y, memo, g'. repeat (split; [done |]).
    intros k k' Hk. by apply Hnew.
Qed.

(** Whatever is reached from a copy is a copy. *)
Lemma reach_copy (memo : gmap nat nat) (h g : list object) (v : value)
    (k : nat) :
  is_copy memo h g →
  reach g v k →
  (∀ y, v = VRef y → ∃ j, memo !! j = Some y) →
  ∃ j, memo !! j = Some k.
Proof.
  intros Hcopy Hreach. induction Hreach as [l|l o c l' Hl Hc _ IH]; intros Hv.
  - by apply Hv.
  - apply IH. intros y ->.
    destruct (Hv l eq_refl) as [j Hj].
    destruct (Hcopy j l Hj) as (o0 & _ & Hl' & Hknown).
    rewrite Hl in Hl'. injection Hl' as ->.
    rewrite children_with_children in Hc by (by rewrite length_fmap).
    apply list_elem_of_fmap in Hc as (c0 & Hc0 & Hin).
    rewrite Forall_forall in Hknown. specialize (Hknown c0 Hin).
    destruct c0 as [| | | | |j']; try discriminate.
    simpl in Hknown, Hc0. destruct Hknown as [y' Hy'].
    rewrite Hy' in Hc0. injection Hc0 as ->. by exists j'.
Qed.

Lemma reach_below (h : list object) (v : value) (k : nat) :
  closed h → reach h v k → below (length h) v → k < length h.
Proof.
  intros Hclosed Hreach. induction Hreach as [l|l o c l' Hl Hc _ IH].
  - done.
  - intros _. apply IH.
    pose proof (Forall_lookup_1 _ _ _ _ Hclosed Hl) as Ho.
    rewrite Forall_forall in Ho. by apply Ho.
Qed.

Lemma copied_list (memo : gmap nat nat) (h g : list object) (l y : nat)
    (items : list value) :
  is_copy memo h g → memo !! l = Some y → h !! l = Some (OList items) →
  list_items g (VRef y) = Some (rename memo <$> items).
Proof.
  intros Hcopy Hy Hl. destruct (Hcopy l y Hy) as (o & Ho & Hg & _).
  rewrite Hl in Ho. injection Ho as <-. simpl in *. by rewrite Hg.
Qed.

End StoreFacts.

(** ** The objects that the constructors build *)

Module StoreBuild.
Import Store.

Lemma json_ind_nested (P : json → Prop) :
  P JNull → (∀ b, P (JBool b)) → (∀ z, P (JInt z)) → (∀ q, P (JFloat q)) →
  (∀ s, P (JStr s)) →
  (∀ items, Forall P items → P (JArr items)) →
  (∀ members, Forall (λ kv, P kv.2) members → P (JObj members)) →
  ∀ j, P j.
Proof.
  intros HNull HBool HInt HFloat HStr HArr HObj. fix IH 1.
  intros [|b|z|q|s|items|members];
    [apply HNull | apply HBool | apply HInt | apply HFloat | apply HStr | |].
  - apply HArr. induction items as [|j items IHitems]; constructor.
    + apply IH.
    + apply IHitems.
  - apply HObj. induction members as [|[k j] members IHmembers]; constructor.
    + apply IH.
    + apply IHmembers.
Qed.

Lemma below_mono (a b : nat) (v : value) : a ≤ b → below a v → below b v.
Proof. destruct v; simpl; try done. lia. Qed.

Lemma closed_alloc (h : list object) (o : object) :
  closed h → Forall (below (length h)) (children o) →
  closed (h ++ [o]).
Proof.
  intros Hh Ho. unfold closed. rewrite length_app. simpl.
  apply Forall_app. split; [| constructor; [| done]].
  - eapply Forall_impl; [exact Hh |]. intros o' Ho'.
    eapply Forall_impl; [exact Ho' |]. intros v. apply below_mono. lia.
  - eapply Forall_impl; [exact Ho |]. intros v. apply below_mono. lia.
Qed.

Lemma built_step {A B : Type} (va : A → list value) (vb : B → list value)
    (h : list object) (ra : A * list object) (rb : B * list object) :
  built va h ra → built vb ra.2 rb →
  closed rb.2 ∧ h `prefix_of` rb.2 ∧
  Forall (below (length rb.2)) (va ra.1 ++ vb rb.1).
Proof.
  intros (_ & Hp1 & Hv1) (Hc2 & Hp2 & Hv2).
  split; [done |]. split; [by etrans |].
  apply Forall_app. split; [| done].
  eapply Forall_impl; [exact Hv1 |]. intros v. apply below_mono.
  by apply prefix_length.
Qed.

Lemma store_json_built (j : json) (h : list object) :
  closed h → built (λ v, [v]) h (store_json j h).
Proof.
  revert h. induction j as [|b|z|q|s|items IH|members IH]
    using json_ind_nested; intros h Hh;
    try (by split; [| split; [| repeat constructor]]).
  - simpl.
    match goal with |- context [?f items h] =>
      assert (Hgo : ∀ g, closed g → built id g (f items g)) end.
    { induction IH as [|j items Hj _ IHitems]; intros g Hg.
      - by split; [| split; [| constructor]].
      - simpl. specialize (Hj g Hg).
        destruct (store_json j g) as [v g1] eqn:Hv.
        match goal with |- context [?f items g1] =>
          specialize (IHitems g1 (proj1 Hj));
          destruct (f items g1) as [vs g2] end.
        exact (built_step _ _ _ (v, g1) (vs, g2) Hj IHitems). }
    specialize (Hgo h Hh).
    match goal with |- context [?f items h] =>
      destruct (f items h) as [vs h'] end.
    destruct Hgo as (Hc & Hp & Hvs). simpl in *.
    split; [by apply closed_alloc |]. split.
    + etrans; [exact Hp |]. by apply prefix_app_r.
    + repeat constructor. simpl. rewrite length_app. simpl. lia.
  - simpl.
    match goal with |- context [?f members h] =>
      assert (Hgo : ∀ g, closed g → built (λ kvs, kvs.*2) g (f members g)) end.
    { induction IH as [|[k j] members Hj _ IHmembers]; intros g Hg.
      - by split; [| split; [| constructor]].
      - simpl in *. specialize (Hj g Hg).
        destruct (store_json j g) as [v g1] eqn:Hv.
        match goal with |- context [?f members g1] =>
          specialize (IHmembers g1 (proj1 Hj));
          destruct (f members g1) as [kvs g2] end.
        exact (built_step _ _ _ (v, g1) (kvs, g2) Hj IHmembers). }
    specialize (Hgo h Hh).
    match goal with |- context [?f members h] =>
      destruct (f members h) as [kvs h'] end.
    destruct Hgo as (Hc & Hp & Hvs). simpl in *.
    split; [by apply closed_alloc |]. split.
    + etrans; [exact Hp |]. by apply prefix_app_r.
    + repeat constructor. simpl. rewrite length_app. simpl. lia.
Qed.

Lemma store_media_built (m : Media.t) (h : list object) :
  closed h → built (λ l, [VRef l]) h (store_media m h).
Proof.
  intros Hh. unfold store_media.
  destruct (store_json_built (Media._entry m) h Hh) as (Hc & Hp & Hv).
  destruct (store_json (Media._entry m) h) as [entry h']. simpl in *.
  split; [| split].
  - apply closed_alloc; [done |]. simpl.
    apply Forall_cons in Hv as [Hv _]. by repeat constructor.
  - etrans; [exact Hp |]. by apply prefix_app_r.
  - repeat constructor. simpl. rewrite length_app. simpl. lia.
Qed.

Lemma store_medias_built (ms : list Media.t) (h : list object) :
  closed h →
  built id h (store_medias ms h) ∧
  length (store_medias ms h).1 = length ms.
Proof.
  revert h. induction ms as [|m ms IH]; intros h Hh; simpl.
  - by split; [split; [| split; [| constructor]] |].
  - pose proof (store_media_built m h Hh) as Hm.
    destruct (store_media m h) as [l h1].
    destruct (IH h1 (proj1 Hm)) as [Hms Hlen].
    destruct (store_medias ms h1) as [vs h2].
    split; [| simpl in *; lia].
    exact (built_step _ _ _ (l, h1) (vs, h2) Hm Hms).
Qed.

(** The objects of a collection: a closed store in which [self._l] is a
    list object with one reference per member. *)
Lemma store_coll_shape (c : Coll.t) (h : list object) :
  closed h →
  closed (store_coll c h).2 ∧
  h `prefix_of` (store_coll c h).2 ∧
  ∃ l items,
    attr (store_coll c h).2 (store_coll c h).1 "_l" = Some (VRef l) ∧
    (store_coll c h).2 !! l = Some (OList items) ∧
    length items = Coll.len c.
Proof.
  intros Hh. unfold store_coll, Coll.len.
  destruct (store_medias_built (Coll._l c) h Hh) as [(Hc1 & Hp1 & Hvs) Hlen].
  destruct (store_medias (Coll._l c) h) as [vs h1]. simpl in *.
  assert (Hc2 : closed (h1 ++ [OList vs])) by (by apply closed_alloc).
  destruct (store_json_built (Coll._name c) _ Hc2) as (Hc3 & Hp3 & Hname).
  destruct (store_json (Coll._name c) (h1 ++ [OList vs])) as [name h3].
  simpl in *.
  assert (Hlist : h3 !! length h1 = Some (OList vs)).
  { eapply prefix_lookup_Some; [| exact Hp3]. by apply list_lookup_middle. }
  split; [| split].
  - apply closed_alloc; [done |]. repeat constructor; [| by inversion Hname].
    simpl. by eapply lookup_lt_Some.
  - etrans; [exact Hp1 |]. etrans; [by apply prefix_app_r |].
    etrans; [exact Hp3 |]. by apply prefix_app_r.
  - exists (length h1), vs. split; [| split; [| done]].
    + unfold attr. by rewrite list_lookup_middle.
    + apply lookup_app_l_Some. exact Hlist.
Qed.

End StoreBuild.

(** ** The snapshot of a collection *)

(** C6. Let [self] be a collection in a store without dangling references,
    with the list object [self._l] holding [items].  Then [content] returns:
    it returns a new list object [snap], after adding objects to the store
    and changing none; every object that can be reached from [snap] is new;
    and [snap] is a copy of [self._l], reference by reference.  Let then
    [h2] be any store that differs from the one [content] left only in
    objects reached from [snap], or in objects added later.  In [h2],
    iterating over the collection yields the same [items], every object
    reached from [self._l] is as it was, and [content] again returns a copy
    of [self._l] as it was. *)
Theorem content_snapshot_isolated (h : list Store.object) (self l : nat)
    (items : list Store.value) (fuel : nat) :
  Store.closed h →
  Store.attr h self "_l" = Some (Store.VRef l) →
  h !! l = Some (Store.OList items) →
  length h < fuel →
  ∃ snap h1 memo,
    Store.content fuel h self = Some (Store.VRef snap, h1) ∧
    (∀ k, k < length h → h1 !! k = h !! k) ∧
    (∀ k, Store.reach h1 (Store.VRef snap) k → length h ≤ k) ∧
    Store.is_copy memo h h1 ∧
    Store.list_items h1 (Store.VRef snap) = Some (Store.rename memo <$> items) ∧
    ∀ h2,
      (∀ k, k < length h1 → ¬ Store.reach h1 (Store.VRef snap) k →
            h2 !! k = h1 !! k) →
      Store.iter h self = Some items ∧
      Store.iter h2 self = Some items ∧
      (∀ k, Store.reach h (Store.VRef l) k → h2 !! k = h !! k) ∧
      ∃ snap2 h3 memo2,
        Store.content fuel h2 self = Some (Store.VRef snap2, h3) ∧
        Store.is_copy memo2 h h3 ∧
        Store.list_items h3 (Store.VRef snap2) =
          Some (Store.rename memo2 <$> items).
Proof.
  intros Hclosed Hattr Hl Hfuel.
  assert (Hl_lt : l < length h) by (by eapply lookup_lt_Some).
  assert (Hself_lt : self < length h).
  { unfold Store.attr in Hattr.
    destruct (h !! self) eqn:Hself; [| done]. by eapply lookup_lt_Some. }
  destruct (StoreFacts.deepcopy_fresh h h l fuel)
    as (snap & memo & h1 & Hrun & Hold & Hsnap & Hmemo & Hcopy); try done.
  assert (Hnew : ∀ k, Store.reach h1 (Store.VRef snap) k → length h ≤ k).
  { intros k Hk.
    destruct (StoreFacts.reach_copy memo h h1 _ k Hcopy Hk) as [j Hj].
    - intros y [= <-]. by exists l.
    - apply Hmemo in Hj. lia. }
  assert (Hlen1 : length h ≤ length h1).
  { apply Hmemo in Hsnap. lia. }
  exists snap, h1, memo.
  split. { unfold Store.content. rewrite Hattr. simpl. by rewrite Hrun. }
  split; [done |]. split; [done |]. split; [done |].
  split. { by eapply StoreFacts.copied_list. }
  intros h2 Hh2.
  assert (Hold2 : ∀ k, k < length h → h2 !! k = h !! k).
  { intros k Hk. rewrite Hh2; [by apply Hold | lia |].
    intros Hreach. apply Hnew in Hreach. lia. }
  assert (Hattr2 : Store.attr h2 self "_l" = Some (Store.VRef l)).
  { unfold Store.attr in *. by rewrite Hold2. }
  split. { unfold Store.iter. rewrite Hattr. simpl. by rewrite Hl. }
  split. { unfold Store.iter. rewrite Hattr2. simpl. by rewrite Hold2, Hl. }
  split.
  { intros k Hk. apply Hold2. by eapply StoreFacts.reach_below. }
  destruct (StoreFacts.deepcopy_fresh h h2 l fuel)
    as (snap2 & memo2 & h3 & Hrun2 & _ & Hsnap2 & _ & Hcopy2); try done.
  exists snap2, h3, memo2.
  split. { unfold Store.content. rewrite Hattr2. simpl. by rewrite Hrun2. }
  split; [done |]. by eapply StoreFacts.copied_list.
Qed.

Lemma show_store_closed : Store.closed show_store.2.
Proof.
  unfold Store.closed. simpl.
  repeat (apply Forall_cons; split; [repeat constructor |]).
  apply Forall_nil_2.
Defined.

Lemma content_snapshot_isolated_witness :
  ∃ snap h1,
    Store.content 9 show_store.2 show_store.1 = Some (Store.VRef snap, h1) ∧
    (∀ k, Store.reach h1 (Store.VRef snap) k → 8 ≤ k) ∧
    ∀ h2,
      (∀ k, k < length h1 → ¬ Store.reach h1 (Store.VRef snap) k →
            h2 !! k = h1 !! k) →
      Store.iter h2 show_store.1 = Some [Store.VRef 2; Store.VRef 5].
Proof.
  destruct (content_snapshot_isolated show_store.2 show_store.1 6
              [Store.VRef 2; Store.VRef 5] 9)
    as (snap & h1 & memo & Hrun & _ & Hnew & _ & _ & Hframe).
  - exact show_store_closed.
  - reflexivity.
  - reflexivity.
  - simpl. lia.
  - exists snap, h1. split; [exact Hrun |]. split; [exact Hnew |].
    intros h2 Hh2. by destruct (Hframe h2 Hh2) as (_ & Hiter & _).
Defined.

(** The snapshot of the collection [G2], emptied and with the first
    descriptor of the copy overwritten: the collection still has its two
    members, with their descriptors, and the next snapshot has two items. *)
Example content_then_mutate :
  let h := show_store.2 in
  let self := show_store.1 in
  ∃ h1,
    Store.content 9 h self = Some (Store.VRef 8, h1) ∧
    let h2 := <[10 := Store.ODict [("title", Store.VStr "changed")]]>
                (<[8 := Store.OList []]> h1) in
    Store.iter h2 self = Some [Store.VRef 2; Store.VRef 5] ∧
    h2 !! 1 = h !! 1 ∧
    Store.list_items h2 (Store.VRef 8) = Some [] ∧
    ∃ h3,
      Store.content 9 h2 self = Some (Store.VRef 15, h3) ∧
      Store.list_items h3 (Store.VRef 15) =
        Some [Store.VRef 16; Store.VRef 19].
Proof.
  simpl. eexists. split; [vm_compute; reflexivity |].
  split; [reflexivity |]. split; [reflexivity |]. split; [reflexivity |].
  eexists. split; vm_compute; reflexivity.
Qed.

(** * Further properties *)

(** ** Coll.__init__ *)

Lemma built_from_descriptor (W : world) (g name : string) (x : Media.t) :
  built_from W g name x ↔
  x = {| Media._path := path_join W g name;
         Media._video := path_join W (path_join W g name) "16\video.m4s";
         Media._audio := path_join W (path_join W g name) "16\audio.m4s";
         Media._entry := Media._entry x |} ∧
  descriptor_at W (path_join W g name) (Media._entry x).
Proof.
  unfold built_from. rewrite media_init_Ok. split.
  - intros (Hd & Hp & Hv & Ha). split; [| done].
    destruct x; simpl in *. congruence.
  - intros [-> Hd]. by simpl in *.
Qed.

Lemma built_from_sound (W : world) (g name : string) (x : Media.t) :
  built_from W g name x → media_sound W x ∧ Media._path x = path_join W g name.
Proof.
  intros H. apply media_init_Ok in H as (Hd & Hp & Hv & Ha).
  unfold media_sound. rewrite Hp. by repeat split.
Qed.

Lemma Forall2_built_paths (W : world) (g : string) (names : list string)
    (xs : list Media.t) :
  Forall2 (built_from W g) names xs →
  Media._path <$> xs = path_join W g <$> names ∧ Forall (media_sound W) xs.
Proof.
  induction 1 as [|name x names xs Hx _ [IHp IHs]]; [done |].
  apply built_from_sound in Hx as [Hs Hp]. csimpl. split.
  - by rewrite Hp, IHp.
  - by constructor.
Qed.

(** X1. A collection that [Coll.__init__] returns is never empty: it has
    one member per listed name, in the order of the listing, each built from
    its own folder, and its name is the collection title of the first. *)
Theorem coll_init_members (W : world) (p : string) (names : list string)
    (c : Coll.t) :
  listdir W p = Ok names →
  Coll.init W p = Ok c →
  0 < Coll.len c ∧
  Coll.len c = length names ∧
  Media._path <$> Coll._l c = path_join W p <$> names ∧
  Coll._path c = p ∧
  coll_sound W c.
Proof.
  intros Hnames Hc.
  apply coll_init_Ok in Hc as (names' & first & Hn & HF & Hf & Hname & Hp).
  rewrite Hnames in Hn. injection Hn as <-.
  destruct (Forall2_built_paths W p names _ HF) as [Hpaths Hsound].
  assert (Hlen : Coll.len c = length names).
  { unfold Coll.len. symmetry. by eapply Forall2_length. }
  split; [| split; [done | split; [done | split; [done |]]]].
  - unfold Coll.len. apply lookup_lt_Some in Hf. lia.
  - split; [by exists first | done].
Qed.

Lemma coll_init_members_witness :
  0 < Coll.len Posix.show_coll ∧
  Coll.len Posix.show_coll = length ["b1"; "b2"] ∧
  Media._path <$> Coll._l Posix.show_coll =
    path_join Posix.library_host "/R/G2" <$> ["b1"; "b2"] ∧
  Coll._path Posix.show_coll = "/R/G2" ∧
  coll_sound Posix.library_host Posix.show_coll.
Proof.
  apply (coll_init_members Posix.library_host "/R/G2" ["b1"; "b2"]).
  - vm_compute. reflexivity.
  - vm_compute. reflexivity.
Defined.

Lemma Forall2_built_descriptors (W : world) (g : string)
    (names : list string) :
  Forall (λ m, ∃ j, descriptor_at W (path_join W g m) j) names ↔
  ∃ xs, Forall2 (built_from W g) names xs.
Proof.
  split.
  - induction 1 as [|m names [j Hj] _ [xs HF]]; [by exists [] |].
    eexists (_ :: xs). constructor; [| done].
    by apply media_init_descriptor.
  - intros [xs HF]. induction HF as [|m x names xs Hx _ IH]; constructor; [| done].
    apply media_init_Ok in Hx as (Hd & _). eauto.
Qed.

(** X2. [Coll.__init__] returns a collection exactly when the folder can
    be listed, lists at least one name, every listed item has a descriptor
    that parses, and the descriptor of the first has the key [title].  No
    other key is looked at, and no other item's [title]. *)
Theorem coll_init_succeeds_iff (W : world) (p : string) :
  (∃ c, Coll.init W p = Ok c) ↔
  ∃ names m0 j0 t,
    listdir W p = Ok names ∧
    names !! 0 = Some m0 ∧
    Forall (λ m, ∃ j, descriptor_at W (path_join W p m) j) names ∧
    descriptor_at W (path_join W p m0) j0 ∧
    subscript j0 "title" = Ok t.
Proof.
  split.
  - intros [c Hc].
    apply coll_init_Ok in Hc as (names & first & Hn & HF & Hf & Hname & _).
    destruct (Forall2_lookup_r _ _ _ _ _ HF Hf) as (m0 & Hm0 & Hfirst).
    apply media_init_Ok in Hfirst as (Hd & _).
    exists names, m0, (Media._entry first), (Coll._name c).
    repeat (split; [done |]). split; [| done].
    apply Forall2_built_descriptors. eauto.
  - intros (names & m0 & j0 & t & Hn & Hm0 & Hall & Hd0 & Ht).
    apply Forall2_built_descriptors in Hall as [xs HF].
    destruct (Forall2_lookup_l _ _ _ _ _ HF Hm0) as (first & Hf & Hfirst).
    exists {| Coll._path := p; Coll._l := xs; Coll._name := t |}.
    apply coll_init_Ok. exists names, first. simpl.
    repeat (split; [done |]). split; [| done].
    unfold built_from in Hfirst.
    rewrite (media_init_descriptor W _ j0 Hd0) in Hfirst.
    injection Hfirst as <-. done.
Qed.

(** X3. When every listed item is built and the descriptor of the first
    cannot give its [title], [Coll.__init__] raises what the lookup raises
    ([KeyError] for an object without the key) and returns no collection,
    although each member could be built on its own. *)
Theorem coll_init_title_missing (W : world) (p : string)
    (m0 : string) (rest : list string) (j0 : json) (e : exn) :
  listdir W p = Ok (m0 :: rest) →
  Forall (λ m, ∃ j, descriptor_at W (path_join W p m) j) (m0 :: rest) →
  descriptor_at W (path_join W p m0) j0 →
  subscript j0 "title" = Raise e →
  Coll.init W p = Raise e ∧
  Forall (λ m, ∃ x, Media.init W (path_join W p m) = Ok x) (m0 :: rest).
Proof.
  intros Hn Hall Hd0 Ht.
  pose proof Hall as Hall'.
  apply Forall2_built_descriptors in Hall as [xs HF].
  split.
  - assert (Hloop : Coll.init_loop W p (m0 :: rest) [] = Ok xs).
    { apply init_loop_Ok. by exists xs. }
    unfold Coll.init. rewrite Hn. cbn -[Coll.init_loop]. rewrite Hloop.
    inversion HF as [|? first ? xs' Hfirst _]; subst. simpl.
    unfold built_from in Hfirst.
    rewrite (media_init_descriptor W _ j0 Hd0) in Hfirst.
    injection Hfirst as <-. unfold Media.coll_name. simpl. by rewrite Ht.
  - eapply Forall_impl; [exact Hall' |]. intros m [j Hj].
    eexists. by apply media_init_descriptor.
Qed.

Lemma coll_init_title_missing_witness :
  Coll.init Posix.keyless_host "/R/G1" = Raise (KeyError "title") ∧
  Forall (λ m, ∃ x, Media.init Posix.keyless_host
                      (path_join Posix.keyless_host "/R/G1" m) = Ok x) ["a1"].
Proof.
  apply (coll_init_title_missing Posix.keyless_host "/R/G1" "a1" [] (JObj [])).
  - vm_compute. reflexivity.
  - repeat constructor. exists (JObj []), "{}". split; vm_compute; reflexivity.
  - exists "{}". split; vm_compute; reflexivity.
  - reflexivity.
Defined.

(** X4. [Coll.__init__] stops at the first listed item that cannot be
    built and raises its exception unchanged; the items listed after it are
    not opened. *)
Theorem coll_init_member_failure (W W' : world) (p : string)
    (n1 n2 : list string) (m : string) (e : exn) :
  listdir W p = Ok (n1 ++ m :: n2) →
  Forall (λ m', ∃ x, Media.init W (path_join W p m') = Ok x) n1 →
  Media.init W (path_join W p m) = Raise e →
  (∀ a b, path_join W' a b = path_join W a b) →
  (∀ s, loads W' s = loads W s) →
  listdir W' p = listdir W p →
  (∀ m', m' ∈ n1 ++ [m] →
         read_text W' (path_join W (path_join W p m') "entry.json") =
         read_text W (path_join W (path_join W p m') "entry.json")) →
  Coll.init W p = Raise e ∧ Coll.init W' p = Raise e.
Proof.
  intros Hn Hn1 Hm Hjoin Hloads Hlist Hread.
  assert (Hinit : ∀ m', m' ∈ n1 ++ [m] →
    Media.init W' (path_join W' p m') = Media.init W (path_join W p m')).
  { intros m' Hm'. unfold Media.init. rewrite !Hjoin, (Hread m' Hm').
    destruct (read_text W _) as [text|]; simpl; [| done]. by rewrite Hloads. }
  split.
  - unfold Coll.init. rewrite Hn. cbn -[Coll.init_loop].
    by rewrite (init_loop_Raise W p n1 n2 m [] e).
  - unfold Coll.init. rewrite Hlist, Hn. cbn -[Coll.init_loop].
    rewrite (init_loop_Raise W' p n1 n2 m [] e); [done | |].
    + rewrite Forall_forall in Hn1. apply Forall_forall. intros m' Hm'.
      destruct (Hn1 m' Hm') as [x Hx]. exists x. unfold built_from.
      rewrite Hinit; [done |]. apply elem_of_app. by left.
    + rewrite Hinit; [done |]. apply elem_of_app. right. by apply list_elem_of_singleton.
Qed.

Lemma coll_init_member_failure_witness :
  Coll.init Cases.broken_host "/R/G2" =
    Raise (FileNotFoundError "/R/G2/b2/entry.json") ∧
  Coll.init Cases.broken_twice_host "/R/G2" =
    Raise (FileNotFoundError "/R/G2/b2/entry.json").
Proof.
  apply (coll_init_member_failure Cases.broken_host Cases.broken_twice_host
           "/R/G2" ["b1"] ["b3"] "b2").
  - vm_compute. reflexivity.
  - repeat constructor. eexists. vm_compute. reflexivity.
  - vm_compute. reflexivity.
  - reflexivity.
  - reflexivity.
  - vm_compute. reflexivity.
  - intros m' Hm'.
    repeat (apply elem_of_cons in Hm' as [->|Hm']; [vm_compute; reflexivity |]).
    by apply elem_of_nil in Hm'.
Defined.

(** ** Coll.video_titles and Coll.append *)

Lemma video_titles_loop_Ok (ms : list Media.t) (r out : list json) :
  Coll.video_titles_loop ms r = Ok out ↔
  ∃ ts, Forall2 (λ m t, Media.title m = Ok t) ms ts ∧ out = r ++ ts.
Proof.
  revert r. induction ms as [|m ms IH]; intros r; simpl.
  - split.
    + intros [= <-]. exists []. split; [constructor | by rewrite app_nil_r].
    + intros (ts & HF & ->). inversion HF; subst. by rewrite app_nil_r.
  - rewrite bind_Ok. split.
    + intros (t & Ht & Hrest). apply IH in Hrest as (ts & HF & ->).
      exists (t :: ts). split; [by constructor | by rewrite <- app_assoc].
    + intros (ts & HF & ->). inversion HF as [|? t ? ts' Ht HF']; subst.
      exists t. split; [exact Ht |]. apply IH. exists ts'.
      split; [exact HF' | by rewrite <- app_assoc].
Qed.

Lemma video_titles_loop_Raise (ms1 ms2 : list Media.t) (m : Media.t)
    (r : list json) (e : exn) :
  Forall (λ m', ∃ t, Media.title m' = Ok t) ms1 →
  Media.title m = Raise e →
  Coll.video_titles_loop (ms1 ++ m :: ms2) r = Raise e.
Proof.
  intros HF Hm. revert r.
  induction HF as [|m' ms1' [t Ht] _ IH]; intros r; simpl.
  - by rewrite Hm.
  - rewrite Ht. simpl. apply IH.
Qed.

(** X5. [video_titles] returns the titles of the members, one per member
    and in their order, exactly when every member has a title; when some
    member has none, it raises the exception of the first such member. *)
Theorem video_titles_spec (c : Coll.t) :
  (∀ ts, Coll.video_titles c = Ok ts ↔
         Forall2 (λ m t, Media.title m = Ok t) (Coll._l c) ts) ∧
  (∀ ts, Coll.video_titles c = Ok ts → length ts = Coll.len c) ∧
  (∀ ms1 m ms2 e,
     Coll._l c = ms1 ++ m :: ms2 →
     Forall (λ m', ∃ t, Media.title m' = Ok t) ms1 →
     Media.title m = Raise e →
     Coll.video_titles c = Raise e).
Proof.
  unfold Coll.video_titles, Coll.len. split; [| split].
  - intros ts. rewrite video_titles_loop_Ok. split.
    + by intros (ts' & HF & ->).
    + intros HF. by exists ts.
  - intros ts Hts. apply video_titles_loop_Ok in Hts as (ts' & HF & ->).
    simpl. symmetry. by eapply Forall2_length.
  - intros ms1 m ms2 e -> Hms1 Hm. by apply video_titles_loop_Raise.
Qed.

Lemma video_titles_loop_snoc_Raise (ms : list Media.t) (m : Media.t)
    (r : list json) (e : exn) :
  Coll.video_titles_loop ms r = Raise e →
  Coll.video_titles_loop (ms ++ [m]) r = Raise e.
Proof.
  revert r. induction ms as [|m' ms IH]; intros r; simpl; [discriminate |].
  destruct (Media.title m') as [t|e0]; simpl; [apply IH | done].
Qed.

(** X6. [append] adds the member at the end and checks nothing: whatever
    the collection and the member, the length grows by one, the members
    that were there keep their places, and the name stays what it was,
    whatever the collection title of the new member.  [video_titles]
    afterwards: where it returned titles before, it returns them with the
    new title at the end, or raises what the new member's [title] raises;
    where it raised before, it raises the same. *)
Theorem append_extends (c : Coll.t) (m : Media.t) :
  Coll.len (Coll.append c m) = S (Coll.len c) ∧
  Coll.name (Coll.append c m) = Coll.name c ∧
  Coll._l (Coll.append c m) !! Coll.len c = Some m ∧
  (∀ i, i < Coll.len c →
        Coll._l (Coll.append c m) !! i = Coll._l c !! i) ∧
  (∀ ts t, Coll.video_titles c = Ok ts → Media.title m = Ok t →
           Coll.video_titles (Coll.append c m) = Ok (ts ++ [t])) ∧
  (∀ ts e, Coll.video_titles c = Ok ts → Media.title m = Raise e →
           Coll.video_titles (Coll.append c m) = Raise e) ∧
  (∀ e, Coll.video_titles c = Raise e →
        Coll.video_titles (Coll.append c m) = Raise e).
Proof.
  unfold Coll.len, Coll.video_titles. simpl.
  split; [rewrite length_app; simpl; lia |]. split; [done |].
  split; [by apply list_lookup_middle |].
  split; [intros i Hi; by apply lookup_app_l |].
  split; [| split].
  - intros ts t Hts Ht. apply video_titles_loop_Ok in Hts as (ts' & HF & ->).
    apply video_titles_loop_Ok. exists (ts' ++ [t]).
    split; [| done]. apply Forall2_app; [done |]. by repeat constructor.
  - intros ts e Hts He. apply video_titles_loop_Ok in Hts as (ts' & HF & ->).
    apply video_titles_loop_Raise; [| done].
    clear -HF. induction HF; constructor; eauto.
  - intros e He. by apply video_titles_loop_snoc_Raise.
Qed.

Lemma append_extends_witness :
  let keyless := {| Media._path := "/x"; Media._video := "/x/v";
                    Media._audio := "/x/a"; Media._entry := JObj [] |} in
  let c1 := Coll.append Posix.show_coll keyless in
  let c2 := Coll.append c1 Cases.lone in
  Coll.len c1 = 3 ∧
  Coll.name c1 = JStr "Show" ∧
  Coll.video_titles c1 = Raise (KeyError "page_data") ∧
  Coll.len c2 = 4 ∧
  Coll.video_titles c2 = Raise (KeyError "page_data") ∧
  Coll.video_titles (Coll.append Posix.show_coll Cases.lone) =
    Ok [JStr "EP1"; JStr "EP2"; JStr "EP1"].
Proof.
  intros keyless c1 c2.
  destruct (append_extends Posix.show_coll keyless)
    as (Hlen1 & Hname1 & _ & _ & _ & Hraise1 & _).
  destruct (append_extends c1 Cases.lone)
    as (Hlen2 & _ & _ & _ & _ & _ & Hkeep2).
  destruct (append_extends Posix.show_coll Cases.lone)
    as (_ & _ & _ & _ & Hok3 & _ & _).
  assert (H1 : Coll.video_titles c1 = Raise (KeyError "page_data")).
  { apply (Hraise1 [JStr "EP1"; JStr "EP2"]); vm_compute; reflexivity. }
  split; [exact Hlen1 |]. split; [exact Hname1 |]. split; [exact H1 |].
  split; [exact Hlen2 |]. split; [by apply Hkeep2 |].
  apply (Hok3 [JStr "EP1"; JStr "EP2"] (JStr "EP1")); vm_compute; reflexivity.
Defined.

Lemma video_titles_spec_witness :
  (Coll.video_titles Posix.show_coll = Ok [JStr "EP1"; JStr "EP2"] ↔
   Forall2 (λ m t, Media.title m = Ok t) (Coll._l Posix.show_coll)
     [JStr "EP1"; JStr "EP2"]) ∧
  length [JStr "EP1"; JStr "EP2"] = Coll.len Posix.show_coll.
Proof.
  destruct (video_titles_spec Posix.show_coll) as (Hiff & Hlen & _).
  split; [apply Hiff |]. apply Hlen. vm_compute. reflexivity.
Defined.

(** ** scan *)

(** The loop takes the children one by one: once a prefix is classified,
    it goes on from the rest with the entries of the prefix appended. *)
Lemma scan_loop_app (W : world) (path : string) (ds1 ds2 : list string)
    (xs acc : list media_or_coll) :
  Forall2 (classified W path) ds1 xs →
  scan_loop W path (ds1 ++ ds2) acc = scan_loop W path ds2 (acc ++ xs).
Proof.
  intros HF. revert acc.
  induction HF as [|d x ds1 xs (c & Hc & Hx) _ IH]; intros acc.
  - by rewrite app_nil_r.
  - cbn [app scan_loop]. rewrite Hc. cbn [mbind res_bind].
    destruct Hx as [(g & m & -> & Hm & ->) | (Hlen & co & Hco & ->)].
    + cbn. unfold built_from in Hm. rewrite Hm. cbn [mbind res_bind].
      rewrite IH. by rewrite <- app_assoc.
    + apply Nat.eqb_neq in Hlen. rewrite Hlen, Hco. cbn [mbind res_bind].
      rewrite IH. by rewrite <- app_assoc.
Qed.

Lemma classified_sound (W : world) (path d : string) (x : media_or_coll) :
  classified W path d x → entry_sound W x.
Proof.
  intros (c & Hc & [(g & m & -> & Hm & ->) | (Hlen & co & Hco & ->)]); simpl.
  - by apply built_from_sound in Hm as [Hs _].
  - apply coll_init_Ok in Hco as (names & first & _ & HF & Hf & Hname & _).
    split; [by exists first |]. by apply Forall2_built_paths in HF as [_ Hs].
Qed.

(** X7. Every entry of a catalog that [scan] returns is sound: each
    [Media], alone or in a collection, has its video and audio paths under
    its own folder and holds the descriptor of that folder, and each
    collection has a first member whose collection title is its name. *)
Theorem scan_result_sound (W : world) (root : string)
    (result : list media_or_coll) :
  scan W root = Ok result →
  Forall (entry_sound W) result.
Proof.
  unfold scan. intros H. apply bind_Ok in H as (ds & _ & H).
  apply scan_loop_Ok in H as (xs & HF & ->). simpl.
  induction HF as [|d x ds xs Hx _ IH]; constructor; [| done].
  by eapply classified_sound.
Qed.

Lemma scan_result_sound_witness :
  Forall (entry_sound Posix.library_host)
    [IsMedia {| Media._path := "/R/G1/a1";
                Media._video := "/R/G1/a1/16\video.m4s";
                Media._audio := "/R/G1/a1/16\audio.m4s";
                Media._entry :=
                  Posix.entry_value "EP1" "EP1" "http://i0.hdslb.com/c.jpg" |};
     IsColl Posix.show_coll].
Proof.
  apply (scan_result_sound Posix.library_host "/R").
  vm_compute. reflexivity.
Defined.

(** X8. A child of the root that cannot be listed, such as a plain file
    next to the group folders, makes [scan] raise and return no catalog; it
    raises the exception of that [os.listdir], unchanged, when the children
    listed before it are classified. *)
Theorem scan_child_not_listable (W : world) (root : string)
    (ds : list string) (d : string) (e : exn) :
  listdir W root = Ok ds →
  d ∈ ds →
  listdir W (path_join W root d) = Raise e →
  (∃ e', scan W root = Raise e') ∧
  (∀ ds1 ds2 xs,
     ds = ds1 ++ d :: ds2 →
     Forall2 (classified W root) ds1 xs →
     scan W root = Raise e).
Proof.
  intros Hds Hd He. split.
  - destruct (scan W root) as [result|e'] eqn:Hscan; [| by exists e'].
    exfalso. unfold scan in Hscan. rewrite Hds in Hscan. simpl in Hscan.
    apply scan_loop_Ok in Hscan as (xs & HF & _).
    apply list_elem_of_lookup in Hd as [i Hi].
    destruct (Forall2_lookup_l _ _ _ _ _ HF Hi) as (x & _ & (c & Hc & _)).
    congruence.
  - intros ds1 ds2 xs -> HF. unfold scan. rewrite Hds. cbn [mbind res_bind].
    rewrite (scan_loop_app W root ds1 (d :: ds2) xs [] HF).
    cbn [scan_loop]. by rewrite He.
Qed.

Lemma lone_classified (W : world) :
  listdir W "/R/G1" = Ok ["a1"] →
  Media.init W "/R/G1/a1" = Ok Cases.lone →
  path_join W = Posix.join →
  Forall2 (classified W "/R") ["G1"] [IsMedia Cases.lone].
Proof.
  intros Hlist Hinit Hjoin. constructor; [| constructor].
  exists ["a1"]. rewrite Hjoin. split; [exact Hlist |]. left.
  exists "a1", Cases.lone. unfold built_from. rewrite Hjoin.
  by repeat split.
Defined.

Lemma scan_child_not_listable_witness :
  (∃ e', scan Cases.littered_host "/R" = Raise e') ∧
  scan Cases.littered_host "/R" = Raise (NotADirectoryError "/R/readme.txt").
Proof.
  destruct (scan_child_not_listable Cases.littered_host "/R"
              ["G1"; "readme.txt"] "readme.txt"
              (NotADirectoryError "/R/readme.txt")) as [Hraises Hfirst].
  - vm_compute. reflexivity.
  - apply list_elem_of_further, list_elem_of_here.
  - vm_compute. reflexivity.
  - split; [exact Hraises |].
    apply (Hfirst ["G1"] [] [IsMedia Cases.lone]); [reflexivity |].
    apply lone_classified; [vm_compute; reflexivity .. | reflexivity].
Defined.

(** X9. A group folder that holds nothing makes [scan] raise and return no
    catalog: it is taken for a collection, and the [IndexError] of
    [Coll.__init__] comes out of [scan] when the children listed before it
    are classified. *)
Theorem scan_empty_group (W : world) (root : string)
    (ds : list string) (d : string) :
  listdir W root = Ok ds →
  d ∈ ds →
  listdir W (path_join W root d) = Ok [] →
  (∃ e', scan W root = Raise e') ∧
  (∀ ds1 ds2 xs,
     ds = ds1 ++ d :: ds2 →
     Forall2 (classified W root) ds1 xs →
     scan W root = Raise IndexError).
Proof.
  intros Hds Hd Hempty.
  assert (Hcoll : Coll.init W (path_join W root d) = Raise IndexError).
  { unfold Coll.init. by rewrite Hempty. }
  split.
  - destruct (scan W root) as [result|e'] eqn:Hscan; [| by exists e'].
    exfalso. unfold scan in Hscan. rewrite Hds in Hscan. simpl in Hscan.
    apply scan_loop_Ok in Hscan as (xs & HF & _).
    apply list_elem_of_lookup in Hd as [i Hi].
    destruct (Forall2_lookup_l _ _ _ _ _ HF Hi) as (x & _ & (c & Hc & Hx)).
    rewrite Hempty in Hc. injection Hc as <-.
    destruct Hx as [(g & m & [=] & _) | (_ & co & Hco & _)]. congruence.
  - intros ds1 ds2 xs -> HF. unfold scan. rewrite Hds. cbn [mbind res_bind].
    rewrite (scan_loop_app W root ds1 (d :: ds2) xs [] HF).
    cbn [scan_loop]. rewrite Hempty. cbn. by rewrite Hcoll.
Qed.

Lemma scan_empty_group_witness :
  (∃ e', scan Cases.emptied_host "/R" = Raise e') ∧
  scan Cases.emptied_host "/R" = Raise IndexError.
Proof.
  destruct (scan_empty_group Cases.emptied_host "/R" ["G1"; "G2"] "G2")
    as [Hraises Hfirst].
  - vm_compute. reflexivity.
  - apply list_elem_of_further, list_elem_of_here.
  - vm_compute. reflexivity.
  - split; [exact Hraises |].
    apply (Hfirst ["G1"] [] [IsMedia Cases.lone]); [reflexivity |].
    apply lone_classified; [vm_compute; reflexivity .. | reflexivity].
Defined.

(** X10. In a root whose groups each list exactly one item, [scan] needs
    nothing of the descriptors but that they parse: it returns one [Media]
    per group, in the order of the listing, built from the only item of the
    group, whatever keys the descriptors have. *)
Theorem scan_lone_items (W : world) (root : string) (ds : list string) :
  listdir W root = Ok ds →
  Forall (λ d, ∃ g j,
            listdir W (path_join W root d) = Ok [g] ∧
            descriptor_at W (path_join W (path_join W root d) g) j) ds →
  ∃ result,
    scan W root = Ok result ∧
    Forall2 (λ d x, ∃ g m,
               listdir W (path_join W root d) = Ok [g] ∧
               x = IsMedia m ∧
               Media._path m = path_join W (path_join W root d) g ∧
               descriptor_at W (Media._path m) (Media._entry m)) ds result.
Proof.
  intros Hds Hall.
  assert (Hres : ∃ result,
    Forall2 (classified W root) ds result ∧
    Forall2 (λ d x, ∃ g m,
               listdir W (path_join W root d) = Ok [g] ∧
               x = IsMedia m ∧
               Media._path m = path_join W (path_join W root d) g ∧
               descriptor_at W (Media._path m) (Media._entry m)) ds result).
  { clear Hds.
    induction Hall as [|d ds (g & j & Hg & Hj) _ (result & HF1 & HF2)].
    - exists []. split; constructor.
    - pose proof (media_init_descriptor W _ j Hj) as Hm.
      eexists (IsMedia _ :: result). split; constructor; try done.
      + exists [g]. split; [done |]. left. eexists g, _. by repeat split.
      + eexists g, _. by repeat split. }
  destruct Hres as (result & HF1 & HF2). exists result. split; [| done].
  unfold scan. rewrite Hds. simpl. apply scan_loop_Ok. by exists result.
Qed.

Lemma scan_lone_items_witness :
  ∃ result,
    scan Posix.keyless_host "/R" = Ok result ∧
    Forall2 (λ d x, ∃ g m,
               listdir Posix.keyless_host
                 (path_join Posix.keyless_host "/R" d) = Ok [g] ∧
               x = IsMedia m ∧
               Media._path m =
                 path_join Posix.keyless_host
                   (path_join Posix.keyless_host "/R" d) g ∧
               descriptor_at Posix.keyless_host (Media._path m)
                 (Media._entry m)) ["G1"] result.
Proof.
  apply (scan_lone_items Posix.keyless_host "/R" ["G1"]).
  - vm_compute. reflexivity.
  - repeat constructor. exists "a1", (JObj []).
    split; [vm_compute; reflexivity |].
    exists "{}". split; vm_compute; reflexivity.
Defined.

(** ** The exporters *)

Lemma append_assoc_str (a b c : string) : (a +:+ b) +:+ c = a +:+ (b +:+ c).
Proof.
  induction a as [|ch a IH]; [reflexivity |].
  change (String ch ((a +:+ b) +:+ c) = String ch (a +:+ (b +:+ c))).
  by rewrite IH.
Qed.

(** X11. The item found in folder [p], exported with every optional
    argument left out: the video goes from [p/16\video.m4s] to
    [des_dir/<part title>.mp4], the audio from [p/16\audio.m4s] to
    [des_dir/<part title>.mp3], and the merge takes the audio stream first
    and the video stream second into [des_dir/<part title>.mp4]; no codec
    argument is passed, and the transcoder is told to overwrite, quietly. *)
Theorem export_with_defaults (W : world) (p : string) (j : json)
    (t des_dir : string) :
  descriptor_at W p j →
  part_title j = Ok (JStr t) →
  ∃ m,
    Media.init W p = Ok m ∧
    extract_video_default W m des_dir =
      Ok {| stream_spec :=
              {| streams := [ffmpeg_input (path_join W p "16\video.m4s")];
                 filename := path_join W des_dir (t +:+ ".mp4");
                 kwargs := [] |};
            overwrite_output := true; quiet := true |} ∧
    extract_audio_default W m des_dir =
      Ok {| stream_spec :=
              {| streams := [ffmpeg_input (path_join W p "16\audio.m4s")];
                 filename := path_join W des_dir (t +:+ ".mp3");
                 kwargs := [] |};
            overwrite_output := true; quiet := true |} ∧
    extract_and_merge_default W m des_dir =
      Ok {| stream_spec :=
              {| streams := [ffmpeg_input (path_join W p "16\audio.m4s");
                             ffmpeg_input (path_join W p "16\video.m4s")];
                 filename := path_join W des_dir (t +:+ ".mp4");
                 kwargs := [] |};
            overwrite_output := true; quiet := true |}.
Proof.
  intros Hd Ht. eexists. split; [by apply media_init_descriptor |].
  unfold extract_video_default, extract_audio_default,
    extract_and_merge_default, extract_video, extract_audio,
    extract_and_merge, default_get_name_func, Media.title.
  unfold part_title in Ht. simpl. rewrite Ht. simpl.
  by rewrite !append_assoc_str.
Qed.

Lemma export_with_defaults_witness :
  ∃ m,
    Media.init Posix.library_host "/R/G2/b2" = Ok m ∧
    extract_video_default Posix.library_host m "/out" =
      Ok {| stream_spec :=
              {| streams := [ffmpeg_input "/R/G2/b2/16\video.m4s"];
                 filename := "/out/EP2.mp4";
                 kwargs := [] |};
            overwrite_output := true; quiet := true |} ∧
    extract_audio_default Posix.library_host m "/out" =
      Ok {| stream_spec :=
              {| streams := [ffmpeg_input "/R/G2/b2/16\audio.m4s"];
                 filename := "/out/EP2.mp3";
                 kwargs := [] |};
            overwrite_output := true; quiet := true |} ∧
    extract_and_merge_default Posix.library_host m "/out" =
      Ok {| stream_spec :=
              {| streams := [ffmpeg_input "/R/G2/b2/16\audio.m4s";
                             ffmpeg_input "/R/G2/b2/16\video.m4s"];
                 filename := "/out/EP2.mp4";
                 kwargs := [] |};
            overwrite_output := true; quiet := true |}.
Proof.
  apply (export_with_defaults Posix.library_host "/R/G2/b2"
           (Posix.entry_value "EP2" "Show" "http://i0.hdslb.com/c.jpg")
           "EP2" "/out").
  - eexists. split; vm_compute; reflexivity.
  - reflexivity.
Defined.

(** X12. An item whose descriptor has no part title is built, but it
    cannot be exported under the default name: each exporter raises the
    exception of the [title] lookup before it reaches the transcoder. *)
Theorem export_without_part_title (W : world) (p : string) (j : json)
    (e : exn) (des_dir fmt : string) (copy : bool) :
  descriptor_at W p j →
  part_title j = Raise e →
  ∃ m,
    Media.init W p = Ok m ∧
    extract_video W m des_dir fmt copy default_get_name_func = Raise e ∧
    extract_audio W m des_dir fmt copy default_get_name_func = Raise e ∧
    extract_and_merge W m des_dir fmt copy default_get_name_func = Raise e.
Proof.
  intros Hd Ht. eexists. split; [by apply media_init_descriptor |].
  unfold extract_video, extract_audio, extract_and_merge,
    default_get_name_func, Media.title.
  unfold part_title in Ht. simpl. by rewrite Ht.
Qed.

Lemma export_without_part_title_witness :
  ∃ m,
    Media.init Posix.keyless_host "/R/G1/a1" = Ok m ∧
    extract_video Posix.keyless_host m "/out" "mp4" false
      default_get_name_func = Raise (KeyError "page_data") ∧
    extract_audio Posix.keyless_host m "/out" "mp4" false
      default_get_name_func = Raise (KeyError "page_data") ∧
    extract_and_merge Posix.keyless_host m "/out" "mp4" false
      default_get_name_func = Raise (KeyError "page_data").
Proof.
  apply (export_without_part_title Posix.keyless_host "/R/G1/a1" (JObj [])).
  - exists "{}". split; vm_compute; reflexivity.
  - reflexivity.
Defined.

(** X13. A name that is not a string cannot be given an extension: when
    the naming function returns a number, [null], a list or an object, as
    [default_get_name_func] does for such a part title, each exporter
    raises [TypeError] before it reaches the transcoder. *)
Theorem export_name_not_a_string (W : world) (m : Media.t) (x : json)
    (des_dir fmt : string) (copy : bool)
    (get_name_func : Media.t → res json) :
  get_name_func m = Ok x →
  (∀ s, x ≠ JStr s) →
  extract_video W m des_dir fmt copy get_name_func = Raise TypeError ∧
  extract_audio W m des_dir fmt copy get_name_func = Raise TypeError ∧
  extract_and_merge W m des_dir fmt copy get_name_func = Raise TypeError.
Proof.
  intros Hx Hns. unfold extract_video, extract_audio, extract_and_merge.
  rewrite Hx. simpl. destruct x; try done. by destruct (Hns s).
Qed.

Lemma export_name_not_a_string_witness :
  let m := {| Media._path := "/R/G1/a1";
              Media._video := "/R/G1/a1/16\video.m4s";
              Media._audio := "/R/G1/a1/16\audio.m4s";
              Media._entry := JObj [("page_data", JObj [("part", JInt 7)])] |} in
  extract_video Posix.library_host m "/out" "mp4" false
    default_get_name_func = Raise TypeError ∧
  extract_audio Posix.library_host m "/out" "mp3" false
    default_get_name_func = Raise TypeError ∧
  extract_and_merge Posix.library_host m "/out" "mp4" true
    default_get_name_func = Raise TypeError.
Proof.
  intros m. split; [| split].
  - apply (export_name_not_a_string Posix.library_host m (JInt 7));
      [reflexivity | discriminate].
  - apply (export_name_not_a_string Posix.library_host m (JInt 7) "/out" "mp3");
      [reflexivity | discriminate].
  - apply (export_name_not_a_string Posix.library_host m (JInt 7) "/out" "mp4"
             true); [reflexivity | discriminate].
Defined.

(** X14. The output file is chosen by the name, the format and the
    destination folder alone.  Two items with the same name, and the video
    export and the merge of one item in the same format, are sent to the
    same file, each time with the order to overwrite it. *)
Theorem export_same_name_same_file (W : world) (m1 m2 : Media.t)
    (des_dir fmt n : string) (c1 c2 c3 : bool)
    (get_name_func : Media.t → res json) :
  get_name_func m1 = Ok (JStr n) →
  get_name_func m2 = Ok (JStr n) →
  ∃ r1 r2 r3,
    extract_video W m1 des_dir fmt c1 get_name_func = Ok r1 ∧
    extract_video W m2 des_dir fmt c2 get_name_func = Ok r2 ∧
    extract_and_merge W m2 des_dir fmt c3 get_name_func = Ok r3 ∧
    filename (stream_spec r1) = filename (stream_spec r2) ∧
    filename (stream_spec r2) = filename (stream_spec r3) ∧
    overwrite_output r1 = true ∧
    overwrite_output r2 = true ∧
    overwrite_output r3 = true.
Proof.
  intros H1 H2. unfold extract_video, extract_and_merge.
  rewrite H1, H2. simpl. do 3 eexists.
  repeat (split; [reflexivity |]).
  by destruct c1, c2, c3.
Qed.

Lemma export_same_name_same_file_witness :
  ∃ m1 m2 r1 r2 r3,
    Media.init Posix.library_host "/R/G1/a1" = Ok m1 ∧
    Media.init Posix.library_host "/R/G2/b1" = Ok m2 ∧
    extract_video Posix.library_host m1 "/out" "mp4" false
      default_get_name_func = Ok r1 ∧
    extract_video Posix.library_host m2 "/out" "mp4" false
      default_get_name_func = Ok r2 ∧
    extract_and_merge Posix.library_host m2 "/out" "mp4" false
      default_get_name_func = Ok r3 ∧
    filename (stream_spec r1) = filename (stream_spec r2) ∧
    filename (stream_spec r2) = filename (stream_spec r3) ∧
    overwrite_output r1 = true ∧
    overwrite_output r2 = true ∧
    overwrite_output r3 = true.
Proof.
  do 2 eexists.
  edestruct (export_same_name_same_file Posix.library_host) as (r1 & r2 & r3 & H);
    [| | exists r1, r2, r3; split; [| split; [| exact H]]].
  3: { vm_compute. reflexivity. }
  3: { vm_compute. reflexivity. }
  - reflexivity.
  - reflexivity.
Defined.

(** X15. The [copy] argument changes nothing but the codec argument: with
    and without it an exporter raises the same exception, or names the same
    streams and the same output file and gives the transcoder the same
    orders (overwrite, quietly), with [c='copy'] passed exactly when [copy]
    is set. *)
Theorem export_copy_flag (W : world) (m : Media.t) (des_dir fmt : string)
    (get_name_func : Media.t → res json) :
  let same (f : world → Media.t → string → string → bool →
                (Media.t → res json) → res ffmpeg_run) :=
    match f W m des_dir fmt true get_name_func,
          f W m des_dir fmt false get_name_func with
    | Ok r, Ok r' =>
        streams (stream_spec r) = streams (stream_spec r') ∧
        filename (stream_spec r) = filename (stream_spec r') ∧
        overwrite_output r = overwrite_output r' ∧
        quiet r = quiet r' ∧
        overwrite_output r = true ∧
        quiet r = true ∧
        kwargs (stream_spec r) = [("c", "copy")] ∧
        kwargs (stream_spec r') = []
    | Raise e, Raise e' => e = e'
    | _, _ => False
    end in
  same extract_video ∧ same extract_audio ∧ same extract_and_merge.
Proof.
  unfold extract_video, extract_audio, extract_and_merge. simpl.
  destruct (get_name_func m) as [x|e]; simpl; [| done].
  destruct (add_str x ".") as [s|e]; simpl; done.
Qed.

(** ** Coll.append and Coll.content on the store *)

Lemma closed_insert (h : list Store.object) (l : nat) (o : Store.object) :
  Store.closed h →
  Forall (Store.below (length h)) (Store.children o) →
  Store.closed (<[l := o]> h).
Proof.
  intros Hh Ho. unfold Store.closed. rewrite length_insert.
  by apply Forall_insert.
Qed.

(** X16. Appending to a collection after a snapshot was taken.  Let
    [content] have returned [snap], leaving the store [h1], and let [hm] be
    the store at the time of the append: [h1], and whatever was created
    since.  Any object of [hm] can be appended: a member, an item of the
    snapshot, an object created after the snapshot.  It is added at the end
    of [self._l], in place, so iteration and the length see it at once; the
    snapshot keeps its items, and none of its objects changes; the next
    snapshot is a new list with one item more. *)
Theorem append_after_snapshot (h h1 hm : list Store.object)
    (self l snap media : nat) (items : list Store.value) (fuel fuel' : nat) :
  Store.closed h →
  Store.attr h self "_l" = Some (Store.VRef l) →
  h !! l = Some (Store.OList items) →
  length h < fuel →
  Store.content fuel h self = Some (Store.VRef snap, h1) →
  h1 `prefix_of` hm →
  Store.closed hm →
  media < length hm →
  length hm < fuel' →
  ∃ h2 old_items,
    Store.list_items hm (Store.VRef snap) = Some old_items ∧
    length old_items = length items ∧
    Store.append hm self media = Some h2 ∧
    Store.iter h2 self = Some (items ++ [Store.VRef media]) ∧
    Store.len h2 self = Some (S (length items)) ∧
    Store.list_items h2 (Store.VRef snap) = Some old_items ∧
    (∀ k, Store.reach h1 (Store.VRef snap) k → h2 !! k = h1 !! k) ∧
    ∃ snap2 h3 new_items,
      Store.content fuel' h2 self = Some (Store.VRef snap2, h3) ∧
      length hm ≤ snap2 ∧
      Store.list_items h3 (Store.VRef snap2) = Some new_items ∧
      length new_items = S (length items).
Proof.
  intros Hclosed Hattr Hl Hfuel Hcontent Hprefix Hclosedm Hmedia Hfuel'.
  assert (Hl_lt : l < length h) by (by eapply lookup_lt_Some).
  assert (Hself : ∃ cls attrs, h !! self = Some (Store.OInst cls attrs)).
  { unfold Store.attr in Hattr.
    destruct (h !! self) as [[| |cls attrs]|]; try done. eauto. }
  destruct Hself as (cls & attrs & Hself).
  assert (Hself_lt : self < length h) by (by eapply lookup_lt_Some).
  assert (Hne : l ≠ self) by (intros ->; congruence).
  destruct (StoreFacts.deepcopy_fresh h h l fuel)
    as (y & memo & g' & Hrun & Hold & Hsnap & Hmemo & Hcopy); try done.
  unfold Store.content in Hcontent. rewrite Hattr in Hcontent.
  cbn -[Store.deepcopy] in Hcontent. rewrite Hrun in Hcontent.
  injection Hcontent as <- <-.
  assert (Hsnap_ge : length h ≤ y ∧ y < length g').
  { apply Hmemo in Hsnap. lia. }
  assert (Hpre : ∀ k, k < length g' → hm !! k = g' !! k).
  { intros k Hk. destruct Hprefix as [ext ->]. by apply lookup_app_l. }
  assert (Hlenm : length g' ≤ length hm) by (by apply prefix_length).
  assert (Holdm : ∀ k, k < length h → hm !! k = h !! k).
  { intros k Hk. rewrite Hpre by lia. by apply Hold. }
  set (new_list := Store.OList (items ++ [Store.VRef media])).
  set (h2 := <[l := new_list]> hm).
  assert (Hattrm : Store.attr hm self "_l" = Some (Store.VRef l)).
  { unfold Store.attr in *. by rewrite Holdm. }
  assert (Hattr2 : Store.attr h2 self "_l" = Some (Store.VRef l)).
  { unfold Store.attr in *. unfold h2. by rewrite list_lookup_insert_ne. }
  assert (Hl2 : h2 !! l = Some new_list).
  { unfold h2. apply list_lookup_insert_eq. lia. }
  assert (Hitems : Store.list_items g' (Store.VRef y) =
                   Some (Store.rename memo <$> items)).
  { by eapply StoreFacts.copied_list. }
  exists h2, (Store.rename memo <$> items).
  split. { simpl in *. by rewrite Hpre by lia. }
  split; [by rewrite length_fmap |].
  split. { unfold Store.append. rewrite Hattrm. simpl. by rewrite Holdm, Hl. }
  split. { unfold Store.iter. rewrite Hattr2. simpl. by rewrite Hl2. }
  split.
  { unfold Store.len. rewrite Hattr2. simpl. rewrite Hl2. simpl.
    rewrite length_app. simpl. f_equal. lia. }
  split.
  { simpl in *. unfold h2. rewrite list_lookup_insert_ne by lia.
    by rewrite Hpre by lia. }
  split.
  { intros k Hk.
    destruct (StoreFacts.reach_copy memo h g' _ k Hcopy Hk) as [j Hj].
    - intros y' [= <-]. by exists l.
    - apply Hmemo in Hj. unfold h2. rewrite list_lookup_insert_ne by lia.
      apply Hpre. lia. }
  assert (Hclosed2 : Store.closed h2).
  { apply closed_insert; [done |]. simpl. apply Forall_app. split.
    - pose proof (Forall_lookup_1 _ _ _ _ Hclosed Hl) as Hitems_below.
      eapply Forall_impl; [exact Hitems_below |]. intros v.
      apply StoreBuild.below_mono. lia.
    - by repeat constructor. }
  assert (Hlen2 : length h2 = length hm) by apply length_insert.
  destruct (StoreFacts.deepcopy_fresh h2 h2 l fuel')
    as (snap2 & memo2 & h3 & Hrun2 & _ & Hsnap2 & Hmemo2 & Hcopy2);
    try done; try lia.
  exists snap2, h3, (Store.rename memo2 <$> (items ++ [Store.VRef media])).
  split.
  { unfold Store.content. rewrite Hattr2. cbn -[Store.deepcopy].
    by rewrite Hrun2. }
  split. { apply Hmemo2 in Hsnap2. lia. }
  split; [by eapply StoreFacts.copied_list |].
  rewrite length_fmap, length_app. simpl. lia.
Qed.

Lemma show_store_later_closed : Store.closed show_store_later.
Proof.
  unfold Store.closed. simpl.
  repeat (apply Forall_cons; split; [repeat constructor |]).
  apply Forall_nil_2.
Defined.

Lemma show_store_snap_closed : Store.closed show_store_snap.
Proof.
  unfold Store.closed. simpl.
  repeat (apply Forall_cons; split; [repeat constructor |]).
  apply Forall_nil_2.
Defined.

Lemma append_after_snapshot_witness :
  (∃ h2 old_items,
     Store.list_items show_store_later (Store.VRef 8) = Some old_items ∧
     length old_items = 2 ∧
     Store.append show_store_later show_store.1 16 = Some h2 ∧
     Store.iter h2 show_store.1 =
       Some [Store.VRef 2; Store.VRef 5; Store.VRef 16] ∧
     Store.len h2 show_store.1 = Some 3 ∧
     Store.list_items h2 (Store.VRef 8) = Some old_items ∧
     ∃ snap2 h3 new_items,
       Store.content 18 h2 show_store.1 = Some (Store.VRef snap2, h3) ∧
       17 ≤ snap2 ∧
       Store.list_items h3 (Store.VRef snap2) = Some new_items ∧
       length new_items = 3) ∧
  (∃ h2 old_items,
     Store.list_items show_store_snap (Store.VRef 8) = Some old_items ∧
     Store.append show_store_snap show_store.1 9 = Some h2 ∧
     Store.iter h2 show_store.1 =
       Some [Store.VRef 2; Store.VRef 5; Store.VRef 9] ∧
     Store.list_items h2 (Store.VRef 8) = Some old_items).
Proof.
  split.
  - destruct (append_after_snapshot show_store.2 show_store_snap
                show_store_later show_store.1 6 8 16
                [Store.VRef 2; Store.VRef 5] 9 18)
      as (h2 & old_items & Hold & Hlen & Happ & Hiter & Hlen2 & Hkeep & _
          & Hnext).
    + exact show_store_closed.
    + reflexivity.
    + reflexivity.
    + simpl. lia.
    + vm_compute. reflexivity.
    + by eexists.
    + exact show_store_later_closed.
    + simpl. lia.
    + simpl. lia.
    + exists h2, old_items. by repeat (split; [done |]).
  - destruct (append_after_snapshot show_store.2 show_store_snap
                show_store_snap show_store.1 6 8 9
                [Store.VRef 2; Store.VRef 5] 9 16)
      as (h2 & old_items & Hold & _ & Happ & Hiter & _ & Hkeep & _).
    + exact show_store_closed.
    + reflexivity.
    + reflexivity.
    + simpl. lia.
    + vm_compute. reflexivity.
    + done.
    + exact show_store_snap_closed.
    + simpl. lia.
    + simpl. lia.
    + exists h2, old_items. by repeat (split; [done |]).
Defined.

(** X17. The objects of any collection value, added to any closed store:
    no object that was there changes; [__len__] returns the number of
    members and [__iter__] yields as many items; [content] returns a new
    list with as many items, and changes no object either. *)
Theorem stored_coll_snapshot (c : Coll.t) (h : list Store.object) :
  Store.closed h →
  ∃ snap h1 items snap_items,
    h `prefix_of` (Store.store_coll c h).2 ∧
    Store.len (Store.store_coll c h).2 (Store.store_coll c h).1 =
      Some (Coll.len c) ∧
    Store.iter (Store.store_coll c h).2 (Store.store_coll c h).1 =
      Some items ∧
    length items = Coll.len c ∧
    Store.content (S (length (Store.store_coll c h).2))
      (Store.store_coll c h).2 (Store.store_coll c h).1 =
      Some (Store.VRef snap, h1) ∧
    length (Store.store_coll c h).2 ≤ snap ∧
    Store.list_items h1 (Store.VRef snap) = Some snap_items ∧
    length snap_items = Coll.len c ∧
    (∀ k, k < length (Store.store_coll c h).2 →
          h1 !! k = (Store.store_coll c h).2 !! k).
Proof.
  intros Hh.
  destruct (StoreBuild.store_coll_shape c h Hh)
    as (Hc & Hp & l & items & Hattr & Hl & Hlen).
  destruct (Store.store_coll c h) as [self h0]. simpl in *.
  assert (Hl_lt : l < length h0) by (by eapply lookup_lt_Some).
  destruct (StoreFacts.deepcopy_fresh h0 h0 l (S (length h0)))
    as (snap & memo & h1 & Hrun & Hold & Hsnap & Hmemo & Hcopy);
    try done; [lia |].
  exists snap, h1, items, (Store.rename memo <$> items).
  split; [done |].
  split. { unfold Store.len. rewrite Hattr. simpl. rewrite Hl. simpl. by f_equal. }
  split. { unfold Store.iter. rewrite Hattr. simpl. by rewrite Hl. }
  split; [done |].
  split.
  { unfold Store.content. rewrite Hattr. cbn -[Store.deepcopy].
    by rewrite Hrun. }
  split. { by apply Hmemo in Hsnap as (_ & ? & _). }
  split. { by eapply StoreFacts.copied_list. }
  split; [by rewrite length_fmap | done].
Qed.

Lemma stored_coll_snapshot_witness :
  ∃ snap h1 items snap_items,
    [] `prefix_of` (Store.store_coll Posix.show_coll []).2 ∧
    Store.len (Store.store_coll Posix.show_coll []).2
      (Store.store_coll Posix.show_coll []).1 = Some 2 ∧
    Store.iter (Store.store_coll Posix.show_coll []).2
      (Store.store_coll Posix.show_coll []).1 = Some items ∧
    length items = 2 ∧
    Store.content (S (length (Store.store_coll Posix.show_coll []).2))
      (Store.store_coll Posix.show_coll []).2
      (Store.store_coll Posix.show_coll []).1 = Some (Store.VRef snap, h1) ∧
    length (Store.store_coll Posix.show_coll []).2 ≤ snap ∧
    Store.list_items h1 (Store.VRef snap) = Some snap_items ∧
    length snap_items = 2 ∧
    (∀ k, k < length (Store.store_coll Posix.show_coll []).2 →
          h1 !! k = (Store.store_coll Posix.show_coll []).2 !! k).
Proof.
  apply (stored_coll_snapshot Posix.show_coll []).
  apply Forall_nil_2.
Defined.
